(** * Signature-based carving and recovery: the forensic tools, embedded

    The three scripts under [src/tools] share one core: a table of magic-byte
    signatures, a matcher ([detect_file_type]), a buffer scanner
    ([carve_files_from_data], Android tool), a tree scanner
    ([scan_drive_deep], universal tool) and a recovery step ([recover_file]
    and the loop of [main] that collects its results).

    Python values are embedded as follows.
    - [bytes] is [list byte]; offsets and sizes are [Z] (Python ints).
    - a [dict] literal that is iterated with [.items()] is an association
      list in insertion order (what CPython 3.7+ iterates).
    - the dict records the code builds are Rocq records, the two shapes of
      [recover_file]'s result form an inductive type.
    - [while True] is a fuelled loop returning [option]: [None] means the
      loop was still running when the fuel ran out.
    - the file system is one tree of files and directories carrying the
      permissions of the running process; what can raise returns a
      [result], and the world a method acts on (the tree and the clock) is
      passed through it.  pathlib is taken as CPython 3.11 has it on POSIX:
      [exists()] and [is_file()] raise [PermissionError] below a directory
      that cannot be searched. *)

From Stdlib Require Import String Ascii.
From Stdlib Require Import List ZArith Lia Bool.
From Stdlib Require Import Strings.Byte.
Import ListNotations.

Local Open Scope Z_scope.

Definition bytes := list byte.

(** ** Python primitives used by the tools *)

Module Py.

(** [len(b)] *)
Definition len {A : Type} (l : list A) : Z := Z.of_nat (length l).

(** [data.startswith(sig)] *)
Fixpoint startswith (data sig : bytes) {struct sig} : bool :=
  match sig with
  | [] => true
  | s :: sig' =>
      match data with
      | [] => false
      | d :: data' => Byte.eqb d s && startswith data' sig'
      end
  end.

(** The search behind [bytes.find]: [data] is the part of the buffer that
    starts at absolute offset [i]; the window moves one byte at a time. *)
Fixpoint find_from (data sig : bytes) (i : Z) : Z :=
  if startswith data sig then i
  else match data with
       | [] => -1
       | _ :: rest => find_from rest sig (i + 1)
       end.

(** [data.find(sig, start)]: lowest index [>= start] where [sig] occurs, or
    [-1].  A negative [start] counts from the end and is clamped at [0]; a
    [start] beyond the end finds nothing, not even the empty pattern. *)
Definition find (data sig : bytes) (start : Z) : Z :=
  let n := len data in
  let start := if start <? 0 then Z.max 0 (start + n) else start in
  if n <? start then -1
  else find_from (skipn (Z.to_nat start) data) sig start.

(** [data[lo:hi]] for [0 <= lo]. *)
Definition slice (data : bytes) (lo hi : Z) : bytes :=
  firstn (Z.to_nat (hi - lo)) (skipn (Z.to_nat lo) data).

(** One lowercase hexadecimal digit. *)
Definition hex_digit (n : N) : ascii :=
  match n with
  | 0 => "0" | 1 => "1" | 2 => "2" | 3 => "3" | 4 => "4" | 5 => "5"
  | 6 => "6" | 7 => "7" | 8 => "8" | 9 => "9" | 10 => "a" | 11 => "b"
  | 12 => "c" | 13 => "d" | 14 => "e" | _ => "f"
  end%N%char.

(** [bytes.hex()] *)
Fixpoint hex (b : bytes) : string :=
  match b with
  | [] => EmptyString
  | x :: rest =>
      let n := Byte.to_N x in
      String (hex_digit (n / 16)) (String (hex_digit (n mod 16)) (hex rest))
  end.

(** Reading hexadecimal back, used to show that [hex] loses nothing. *)
Definition hex_value (c : ascii) : option N :=
  match N_of_ascii c with
  | 48 => Some 0 | 49 => Some 1 | 50 => Some 2 | 51 => Some 3 | 52 => Some 4
  | 53 => Some 5 | 54 => Some 6 | 55 => Some 7 | 56 => Some 8 | 57 => Some 9
  | 97 => Some 10 | 98 => Some 11 | 99 => Some 12 | 100 => Some 13
  | 101 => Some 14 | 102 => Some 15
  | _ => None
  end%N.

Fixpoint fromhex (s : string) : option bytes :=
  match s with
  | EmptyString => Some []
  | String hi (String lo rest) =>
      match hex_value hi, hex_value lo, fromhex rest with
      | Some h, Some l, Some bs =>
          match Byte.of_N (h * 16 + l) with
          | Some b => Some (b :: bs)
          | None => None
          end
      | _, _, _ => None
      end
  | String _ EmptyString => None
  end.

(** [s.split(sep)] for a one-character separator: never empty, one more
    piece than there are separators. *)
Fixpoint split (sep : ascii) (s : string) : list string :=
  match s with
  | EmptyString => [EmptyString]
  | String c rest =>
      if Ascii.eqb c sep then EmptyString :: split sep rest
      else match split sep rest with
           | piece :: more => String c piece :: more
           | [] => [String c EmptyString]
           end
  end.

(** [sub in s] on strings. *)
Fixpoint contains (sub s : string) : bool :=
  String.prefix sub s ||
  match s with
  | EmptyString => false
  | String _ rest => contains sub rest
  end.

End Py.

Import Py.

(** [sig] occurs in [data] at offset [p]. *)
Definition occurs (data sig : bytes) (p : Z) : Prop :=
  0 <= p <= len data /\ startswith (skipn (Z.to_nat p) data) sig = true.

(** ** The Android tool: signature table, matcher, buffer scan *)

Module Android.

(** [self.file_signatures]: tag -> alternative magic patterns. *)
Definition registry := list (string * list bytes).

Definition file_signatures : registry :=
  [ ("jpg"%string, [[xff; xd8; xff]]);
    ("png"%string, [[x89; x50; x4e; x47]]);
    ("gif"%string, [[x47; x49; x46; x38]]);
    ("pdf"%string, [[x25; x50; x44; x46]]);
    ("zip"%string, [[x50; x4b; x03; x04]]);
    ("mp4"%string, [[x00; x00; x00; x18; x66; x74; x79; x70];
                    [x00; x00; x00; x1c; x66; x74; x79; x70]]);
    ("mp3"%string, [[x49; x44; x33]; [xff; xfb]]);
    ("doc"%string, [[xd0; xcf; x11; xe0]]);
    ("docx"%string, [[x50; x4b; x03; x04]]);
    ("sqlite"%string, [[x53; x51; x4c; x69; x74; x65; x20; x66; x6f; x72;
                        x6d; x61; x74; x20; x33]]) ].

(** The (tag, pattern) pairs in the order the nested loops visit them. *)
Definition pairs (sigs : registry) : list (string * bytes) :=
  flat_map (fun '(file_type, signatures) => map (pair file_type) signatures) sigs.

(** [detect_file_type]: the first tag, in table order, one of whose
    patterns is a prefix of [data]. *)
Fixpoint detect_file_type_with (sigs : registry) (data : bytes) : string :=
  match sigs with
  | [] => "unknown"
  | (file_type, signatures) :: rest =>
      if existsb (startswith data) signatures then file_type
      else detect_file_type_with rest data
  end.

Definition detect_file_type : bytes -> string :=
  detect_file_type_with file_signatures.

(** The dict appended to [carved_files]. *)
Record carved_file := mk_carved {
  cf_type : string;
  cf_offset : Z;
  cf_signature : string
}.

(** The [while True] loop of [carve_files_from_data] for one pattern. *)
Fixpoint scan_signature (fuel : nat) (data : bytes) (file_type : string)
    (sig : bytes) (pos : Z) (carved_files : list carved_file)
    : option (list carved_file) :=
  match fuel with
  | O => None
  | S fuel' =>
      let pos := find data sig pos in
      if pos =? -1 then Some carved_files
      else
        scan_signature fuel' data file_type sig (pos + len sig)
          (carved_files ++ [mk_carved file_type pos (hex sig)])
  end.

(** [for sig in signatures] *)
Fixpoint scan_signatures (fuel : nat) (data : bytes) (file_type : string)
    (signatures : list bytes) (carved_files : list carved_file)
    : option (list carved_file) :=
  match signatures with
  | [] => Some carved_files
  | sig :: rest =>
      match scan_signature fuel data file_type sig 0 carved_files with
      | Some carved_files' =>
          scan_signatures fuel data file_type rest carved_files'
      | None => None
      end
  end.

(** [for file_type, signatures in self.file_signatures.items()] *)
Fixpoint scan_items (fuel : nat) (data : bytes) (sigs : registry)
    (carved_files : list carved_file) : option (list carved_file) :=
  match sigs with
  | [] => Some carved_files
  | (file_type, signatures) :: rest =>
      match scan_signatures fuel data file_type signatures carved_files with
      | Some carved_files' => scan_items fuel data rest carved_files'
      | None => None
      end
  end.

(** [carve_files_from_data], over any signature table; [fuel] bounds the
    iterations of each [while] loop. *)
Definition carve_files_from_data_with (sigs : registry) (fuel : nat)
    (data : bytes) : option (list carved_file) :=
  scan_items fuel data sigs [].

Definition carve_files_from_data : nat -> bytes -> option (list carved_file) :=
  carve_files_from_data_with file_signatures.

(** *** Devices *)

Definition newline : ascii := "010"%char.
Definition tab : ascii := "009"%char.

(** [list_devices], from the text [adb devices] printed; [None] stands for
    [subprocess.run] raising, which the [except] turns into the empty
    list.  Logging is left out. *)
Definition list_devices (stdout : option string) : list string :=
  match stdout with
  | None => []
  | Some out =>
      fold_left
        (fun devices line =>
           if contains (String tab "device") line
           then devices ++ [hd EmptyString (split tab line)]
           else devices)
        (tl (split newline out)) []
  end.

(** [connect_device], given what [list_devices] returned and the current
    [self.device_id]; the result is the new [self.device_id] and the value
    returned.  A [device_id] that is [None] or empty is falsy. *)
Definition connect_device (devices : list string) (self_device_id : option string)
    (device_id : option string) : option string * bool :=
  match devices with
  | [] => (self_device_id, false)
  | first :: _ =>
      match device_id with
      | Some d =>
          if String.eqb d EmptyString then (Some first, true)
          else if existsb (String.eqb d) devices then (Some d, true)
          else (self_device_id, false)
      | None => (Some first, true)
      end
  end.

End Android.

(** ** The universal tool: signature table, matcher, tree scan, recovery *)

Module Universal.

Definition registry := list (string * list bytes).

(** [self.file_signatures] *)
Definition file_signatures : registry :=
  [ ("jpg"%string, [[xff; xd8; xff; xe0]; [xff; xd8; xff; xe1]; [xff; xd8; xff; xe2]]);
    ("png"%string, [[x89; x50; x4e; x47; x0d; x0a; x1a; x0a]]);
    ("gif"%string, [[x47; x49; x46; x38; x37; x61]; [x47; x49; x46; x38; x39; x61]]);
    ("bmp"%string, [[x42; x4d]]);
    ("ico"%string, [[x00; x00; x01; x00]]);
    ("tiff"%string, [[x49; x49; x2a; x00]; [x4d; x4d; x00; x2a]]);
    ("pdf"%string, [[x25; x50; x44; x46]]);
    ("doc"%string, [[xd0; xcf; x11; xe0; xa1; xb1; x1a; xe1]]);
    ("docx"%string, [[x50; x4b; x03; x04]]);
    ("xls"%string, [[xd0; xcf; x11; xe0; xa1; xb1; x1a; xe1]]);
    ("xlsx"%string, [[x50; x4b; x03; x04]]);
    ("ppt"%string, [[xd0; xcf; x11; xe0; xa1; xb1; x1a; xe1]]);
    ("pptx"%string, [[x50; x4b; x03; x04]]);
    ("txt"%string, [[xef; xbb; xbf]; [xff; xfe]; [xfe; xff]]);
    ("rtf"%string, [[x7b; x5c; x72; x74; x66]]);
    ("zip"%string, [[x50; x4b; x03; x04]; [x50; x4b; x05; x06]]);
    ("rar"%string, [[x52; x61; x72; x21; x1a; x07]]);
    ("7z"%string, [[x37; x7a; xbc; xaf; x27; x1c]]);
    ("tar"%string, [[x75; x73; x74; x61; x72]]);
    ("gz"%string, [[x1f; x8b]]);
    ("mp4"%string, [[x00; x00; x00; x18; x66; x74; x79; x70];
                    [x00; x00; x00; x1c; x66; x74; x79; x70]]);
    ("mp3"%string, [[x49; x44; x33]; [xff; xfb]; [xff; xf3]; [xff; xf2]]);
    ("wav"%string, [[x52; x49; x46; x46]]);
    ("avi"%string, [[x52; x49; x46; x46]]);
    ("mkv"%string, [[x1a; x45; xdf; xa3]]);
    ("flv"%string, [[x46; x4c; x56]]);
    ("mov"%string, [[x00; x00; x00; x14; x66; x74; x79; x70]]);
    ("exe"%string, [[x4d; x5a]]);
    ("dll"%string, [[x4d; x5a]]);
    ("so"%string, [[x7f; x45; x4c; x46]]);
    ("dmg"%string, [[x78; x01; x73; x0d; x62; x62; x60]]);
    ("sqlite"%string, [[x53; x51; x4c; x69; x74; x65; x20; x66; x6f; x72;
                        x6d; x61; x74; x20; x33]]);
    ("mdb"%string, [[x00; x01; x00; x00; x53; x74; x61; x6e; x64; x61;
                     x72; x64; x20; x4a]]);
    ("pst"%string, [[x21; x42; x44; x4e]]);
    ("eml"%string, [[x46; x72; x6f; x6d]]) ].

(** [self.typical_sizes]: tag -> (minimum, maximum).  No method reads it. *)
Definition typical_sizes : list (string * (Z * Z)) :=
  [ ("jpg"%string, (10 * 1024, 10 * 1024 * 1024));
    ("png"%string, (5 * 1024, 5 * 1024 * 1024));
    ("pdf"%string, (50 * 1024, 50 * 1024 * 1024));
    ("doc"%string, (20 * 1024, 100 * 1024 * 1024));
    ("mp4"%string, (100 * 1024, 5 * 1024 * 1024 * 1024));
    ("mp3"%string, (100 * 1024, 20 * 1024 * 1024)) ].

(** The two nested [for] loops of [detect_file_type]. *)
Fixpoint first_match (sigs : registry) (data : bytes) : string :=
  match sigs with
  | [] => "unknown"
  | (file_type, signatures) :: rest =>
      if existsb (startswith data) signatures then file_type
      else first_match rest data
  end.

(** [detect_file_type], over any signature table. *)
Definition detect_file_type_with (sigs : registry) (data : bytes) : string :=
  if len data <? 16 then "unknown" else first_match sigs data.

Definition detect_file_type : bytes -> string :=
  detect_file_type_with file_signatures.

(** *** The file system

    One tree holds everything the tool touches: what is scanned, the
    recovery directory and the log file in it.  A path is its list of
    components from the root ([Path(str(p)) == p], so the [str] round trip
    of the code is left out).  The flags say what this process may do: read
    or write a file; list a directory, create entries in it, or look
    entries up in it (search it).  Every file belongs to the user running
    the tool, and there are no links. *)

Definition path := list string.

#[warnings="-register-all"]
Inductive node :=
| File (name : string) (readable writable : bool) (content : bytes) (mtime : Z)
| Dir (name : string) (listable writable searchable : bool) (children : list node).

Definition node_name (n : node) : string :=
  match n with
  | File name _ _ _ _ => name
  | Dir name _ _ _ _ => name
  end.

(** The exceptions met: those the file system raises, all of them
    [OSError]s, and the two [datetime.fromtimestamp] raises besides. *)
Inductive exn :=
| PermissionError
| FileNotFoundError
| FileExistsError
| NotADirectoryError
| IsADirectoryError
| SameFileError
| OSError
| ValueError
| OverflowError.

(** [isinstance(e, OSError)] *)
Definition is_os_error (e : exn) : bool :=
  match e with
  | ValueError | OverflowError => false
  | _ => true
  end.

Inductive result (A : Type) :=
| Ok (a : A)
| Error (e : exn).

Arguments Ok {A} a.
Arguments Error {A} e.

Inductive lookup_result :=
| Found (n : node)
| Missing
| Denied.

Definition named (c : string) (k : node) : bool := String.eqb (node_name k) c.

(** Resolving a path below [n]: every directory on the way has to be
    searchable. *)
Fixpoint lookup (n : node) (p : path) : lookup_result :=
  match p with
  | [] => Found n
  | c :: p' =>
      match n with
      | File _ _ _ _ _ => Missing
      | Dir _ _ _ searchable children =>
          if searchable then
            match List.find (named c) children with
            | Some k => lookup k p'
            | None => Missing
            end
          else Denied
      end
  end.

(** [os.path.isdir] *)
Definition isdir (fs : node) (p : path) : bool :=
  match lookup fs p with
  | Found (Dir _ _ _ _ _) => true
  | _ => false
  end.

(** The entry named [c] gives way to [new]. *)
Fixpoint replace_child (c : string) (new : node) (children : list node)
    : list node :=
  match children with
  | [] => []
  | k :: rest =>
      if named c k then new :: rest else k :: replace_child c new rest
  end.

(** [mkdir(parents=True, exist_ok=True)]: directories on the way that exist
    are entered, the missing ones are made (which takes a writable,
    searchable parent); a file in the way raises. *)
Fixpoint mkdir_p (n : node) (p : path) : result node :=
  match p with
  | [] =>
      match n with
      | Dir _ _ _ _ _ => Ok n
      | File _ _ _ _ _ => Error FileExistsError
      end
  | c :: p' =>
      match n with
      | File _ _ _ _ _ => Error NotADirectoryError
      | Dir name listable writable searchable children =>
          if searchable then
            match List.find (named c) children with
            | Some k =>
                match mkdir_p k p' with
                | Ok k' =>
                    Ok (Dir name listable writable searchable
                          (replace_child c k' children))
                | Error e => Error e
                end
            | None =>
                if writable then
                  match mkdir_p (Dir c true true true []) p' with
                  | Ok k' =>
                      Ok (Dir name listable writable searchable (children ++ [k']))
                  | Error e => Error e
                  end
                else Error PermissionError
            end
          else Error PermissionError
      end
  end.

(** Opening the file at [p] for writing: [leaf] says what becomes of the
    entry of that name, given what is there.  An existing entry is opened
    as it is; a new one takes a writable parent. *)
Fixpoint write (leaf : string -> option node -> result node) (n : node) (p : path)
    : result node :=
  match p with
  | [] => Error IsADirectoryError
  | c :: p' =>
      match n with
      | File _ _ _ _ _ => Error NotADirectoryError
      | Dir name listable writable searchable children =>
          if searchable then
            match List.find (named c) children, p' with
            | Some k, [] =>
                match leaf c (Some k) with
                | Ok k' =>
                    Ok (Dir name listable writable searchable
                          (replace_child c k' children))
                | Error e => Error e
                end
            | Some k, _ :: _ =>
                match write leaf k p' with
                | Ok k' =>
                    Ok (Dir name listable writable searchable
                          (replace_child c k' children))
                | Error e => Error e
                end
            | None, [] =>
                if writable then
                  match leaf c None with
                  | Ok k' =>
                      Ok (Dir name listable writable searchable (children ++ [k']))
                  | Error e => Error e
                  end
                else Error PermissionError
            | None, _ :: _ => Error FileNotFoundError
            end
          else Error PermissionError
      end
  end.

(** [open(dst, 'wb')], the bytes, then [copystat]: the copy takes the
    source's mode and time, so the copy of a read-only file is read-only. *)
Definition put_copy (readable writable : bool) (content : bytes) (mtime : Z)
    (c : string) (old : option node) : result node :=
  match old with
  | None => Ok (File c readable writable content mtime)
  | Some (File _ _ w _ _) =>
      if w then Ok (File c readable writable content mtime)
      else Error PermissionError
  | Some (Dir _ _ _ _ _) => Error IsADirectoryError
  end.

(** [open(p, 'a')] and one [write]. *)
Definition put_append (line : bytes) (time : Z) (c : string) (old : option node)
    : result node :=
  match old with
  | None => Ok (File c true true line time)
  | Some (File _ r w content _) =>
      if w then Ok (File c r w (content ++ line) time)
      else Error PermissionError
  | Some (Dir _ _ _ _ _) => Error IsADirectoryError
  end.

(** [shutil.copy2(src, dst)]: into [dst] when that is a directory; never
    onto the source itself; the source is opened before the destination. *)
Definition copy2 (fs : node) (src dst : path) : result node :=
  let dst := if isdir fs dst then dst ++ [last src EmptyString] else dst in
  match lookup fs src with
  | Found (File _ readable writable content mtime) =>
      if list_eq_dec string_dec src dst then Error SameFileError
      else if readable then write (put_copy readable writable content mtime) fs dst
      else Error PermissionError
  | Found (Dir _ _ _ _ _) =>
      if list_eq_dec string_dec src dst then Error SameFileError
      else Error IsADirectoryError
  | Missing => Error FileNotFoundError
  | Denied => Error PermissionError
  end.

(** [open(p, 'rb').read()] *)
Definition read_bytes (fs : node) (p : path) : result bytes :=
  match lookup fs p with
  | Found (File _ readable _ content _) =>
      if readable then Ok content else Error PermissionError
  | Found (Dir _ _ _ _ _) => Error IsADirectoryError
  | Missing => Error FileNotFoundError
  | Denied => Error PermissionError
  end.

(** What the messages passed to [log] say. *)
Inductive log_event :=
| Log_scan_start (drive_path : path)
| Log_drive_not_accessible (drive_path : path)
| Log_phase1
| Log_phase1_complete (found : nat)
| Log_admin
| Log_no_admin
| Log_scan_error (e : exn)
| Log_recovered (name : string)
| Log_recovery_error (e : exn).

(** What the tool takes from the platform it runs on. *)
Record platform := mk_platform {
  (** [hashlib.sha256(...).hexdigest()] *)
  sha256_hexdigest : bytes -> string;
  (** [datetime.now().strftime("%Y%m%d_%H%M%S")] at the k-th reading of
      the clock *)
  strftime_now : nat -> string;
  (** the same instant as a file time *)
  time_now : nat -> Z;
  (** the line [log] writes at the k-th reading of the clock, encoded *)
  log_entry : nat -> log_event -> bytes;
  (** [datetime.fromtimestamp]: the datetime is made, or this is raised *)
  fromtimestamp : Z -> result unit;
  (** [st_size] of a directory *)
  dir_size : Z;
  (** [check_admin_privileges()] *)
  is_admin : bool
}.

(** [p.stat().st_size] *)
Definition stat_size (pf : platform) (fs : node) (p : path) : result Z :=
  match lookup fs p with
  | Found (File _ _ _ content _) => Ok (len content)
  | Found (Dir _ _ _ _ _) => Ok (dir_size pf)
  | Missing => Error FileNotFoundError
  | Denied => Error PermissionError
  end.

(** *** The tree scan *)

(** The directories [rglob] visits below [n] (itself first, then the
    subdirectories in listing order, depth first), each with its listing
    and with whether its entries can be looked up.  A directory that cannot
    be listed is passed over in silence, as pathlib does; below one that
    can be listed but not searched nothing can be opened. *)
Fixpoint iterate_directories (p : path) (n : node)
    : list (path * bool * list node) :=
  match n with
  | File _ _ _ _ _ => []
  | Dir _ listable _ searchable children =>
      if listable then
        (p, searchable, children)
          :: (if searchable
              then flat_map (fun c => iterate_directories (p ++ [node_name c]) c)
                            children
              else [])
      else []
  end.

(** [drive.rglob('*')]: every entry of every visited directory, with
    whether it can be looked up. *)
Definition rglob (p : path) (n : node) : list (path * bool * node) :=
  flat_map (fun '(d, searchable, children) =>
              map (fun c => (d ++ [node_name c], searchable, c)) children)
           (iterate_directories p n).

(** The dict appended to [found_files]; [ff_modified] is the time the
    datetime was made from. *)
Record found_file := mk_found {
  ff_path : path;
  ff_name : string;
  ff_size : Z;
  ff_type : string;
  ff_modified : Z;
  ff_source : string;
  ff_recoverable : bool
}.

(** [file_types is None or file_type in file_types] *)
Definition wanted (file_types : option (list string)) (file_type : string) : bool :=
  match file_types with
  | None => true
  | Some l => existsb (String.eqb file_type) l
  end.

(** What one turn of the loop does to the loop: it goes on, or an
    exception leaves it. *)
Inductive turn :=
| Next (found_files : list found_file)
| Stop (found_files : list found_file) (e : exn).

(** One turn of the [for item in drive.rglob('*')] loop.  [is_file()]
    stands outside the inner [try]: on an entry that cannot be looked up it
    raises [PermissionError], which only the outer [except] catches, and
    the scan is over.  Inside the inner [try], a file that cannot be opened
    is passed; the entry's datetime is made only once the type is wanted,
    and what [fromtimestamp] raises is passed when it is an [OSError] and
    ends the scan when it is not. *)
Definition scan_item (pf : platform) (file_types : option (list string))
    (found_files : list found_file) (item : path * bool * node) : turn :=
  let '(p, searchable, n) := item in
  if searchable then
    match n with
    | Dir _ _ _ _ _ => Next found_files
    | File name readable _ content mtime =>
        if readable then
          let header := firstn 32 content in
          let file_type := detect_file_type header in
          if wanted file_types file_type then
            match fromtimestamp pf mtime with
            | Ok _ =>
                Next (found_files ++
                        [mk_found p name (len content) file_type mtime
                                  "existing" true])
            | Error e =>
                if is_os_error e then Next found_files
                else Stop found_files e
            end
          else Next found_files
        else Next found_files
    end
  else Stop found_files PermissionError.

(** The loop: the entries found, and the exception that left it, if any. *)
Fixpoint scan_loop (pf : platform) (file_types : option (list string))
    (items : list (path * bool * node)) (found_files : list found_file)
    : list found_file * option exn :=
  match items with
  | [] => (found_files, None)
  | item :: rest =>
      match scan_item pf file_types found_files item with
      | Next found_files' => scan_loop pf file_types rest found_files'
      | Stop found_files' e => (found_files', Some e)
      end
  end.

(** The world the tool acts on: the file system, and how many times the
    clock has been read. *)
Record world := mk_world {
  w_fs : node;
  w_clock : nat
}.

(** The [error] of a failure dict: a literal, or [str(e)]. *)
Inductive error_text :=
| Text (s : string)
| Str (e : exn).

(** The two dicts [recover_file] returns. *)
Inductive recover_result :=
| Recovered (source destination : path) (hash : string) (size : Z)
| Failure (error : error_text).

Definition success (r : recover_result) : bool :=
  match r with
  | Recovered _ _ _ _ => true
  | Failure _ => false
  end.

(** How a call of [recover_file] ends: with a dict, or with an exception
    that leaves it. *)
Inductive outcome :=
| Returns (r : recover_result)
| Raises (e : exn).

Section Tool.

Variable pf : platform.
(** [self.recovery_path] *)
Variable recovery_path : path.

(** [self.log_file] *)
Definition log_file : path := recovery_path ++ ["forensic_log.txt"%string].

(** [self.log]: reads the clock and appends one line to the log file. *)
Definition log (w : world) (event : log_event) : world * result unit :=
  let k := w_clock w in
  match write (put_append (log_entry pf k event) (time_now pf k)) (w_fs w) log_file with
  | Ok fs => (mk_world fs (S k), Ok tt)
  | Error e => (mk_world (w_fs w) (S k), Error e)
  end.

(** *** [scan_drive_deep] *)

(** The [try] block: the entries found, and the exception that left the
    block, if any.  [rglob] lists lazily, so the walk finds the tree as the
    log line before it left it. *)
Definition scan_try (w : world) (drive_path : path)
    (file_types : option (list string))
    : world * list found_file * option exn :=
  match lookup (w_fs w) drive_path with
  | Denied => (w, [], Some PermissionError)
  | Missing =>
      match log w (Log_drive_not_accessible drive_path) with
      | (w, Ok _) => (w, [], None)
      | (w, Error e) => (w, [], Some e)
      end
  | Found _ =>
      match log w Log_phase1 with
      | (w, Error e) => (w, [], Some e)
      | (w, Ok _) =>
          let items :=
            match lookup (w_fs w) drive_path with
            | Found drive => rglob drive_path drive
            | _ => []
            end in
          match scan_loop pf file_types items [] with
          | (found_files, Some e) => (w, found_files, Some e)
          | (found_files, None) =>
              match log w (Log_phase1_complete (length found_files)) with
              | (w, Error e) => (w, found_files, Some e)
              | (w, Ok _) =>
                  match log w (if is_admin pf then Log_admin else Log_no_admin) with
                  | (w, Error e) => (w, found_files, Some e)
                  | (w, Ok _) => (w, found_files, None)
                  end
              end
          end
      end
  end.

(** [scan_drive_deep]: the first line is logged before the [try]; whatever
    leaves the [try] is logged by the outer [except], and the entries found
    so far are returned.  Only an exception of [log] itself, at the first
    line or in the [except], leaves the function. *)
Definition scan_drive_deep (w : world) (drive_path : path)
    (file_types : option (list string)) : world * result (list found_file) :=
  match log w (Log_scan_start drive_path) with
  | (w, Error e) => (w, Error e)
  | (w, Ok _) =>
      match scan_try w drive_path file_types with
      | (w, found_files, None) => (w, Ok found_files)
      | (w, found_files, Some e) =>
          match log w (Log_scan_error e) with
          | (w, Ok _) => (w, Ok found_files)
          | (w, Error e') => (w, Error e')
          end
      end
  end.

(** *** [recover_file] *)

(** The [except] of [recover_file]: the error is logged and returned; if
    logging raises in its turn, that exception leaves [recover_file]. *)
Definition on_exception (w : world) (e : exn) : world * outcome :=
  match log w (Log_recovery_error e) with
  | (w', Ok _) => (w', Returns (Failure (Str e)))
  | (w', Error e') => (w', Raises e')
  end.
(** [recover_file] *)
Definition recover_file (w : world) (file_info : found_file)
    (output_dir : option path) : world * outcome :=
  let output_dir :=
    match output_dir with None => recovery_path | Some d => d end in
  let source := ff_path file_info in
  match lookup (w_fs w) source with
  | Missing => (w, Returns (Failure (Text "File not found")))
  | Denied => on_exception w PermissionError
  | Found _ =>
      let timestamp := strftime_now pf (w_clock w) in
      let w := mk_world (w_fs w) (S (w_clock w)) in
      let recovery_folder := output_dir ++ [timestamp] in
      match mkdir_p (w_fs w) recovery_folder with
      | Error e => on_exception w e
      | Ok fs =>
          let w := mk_world fs (w_clock w) in
          let dest := recovery_folder ++ [last source EmptyString] in
          match copy2 (w_fs w) source dest with
          | Error e => on_exception w e
          | Ok fs =>
              let w := mk_world fs (w_clock w) in
              match read_bytes (w_fs w) dest with
              | Error e => on_exception w e
              | Ok copied =>
                  let file_hash := sha256_hexdigest pf copied in
                  match log w (Log_recovered (last source EmptyString)) with
                  | (w, Error e) => on_exception w e
                  | (w, Ok _) =>
                      match stat_size pf (w_fs w) dest with
                      | Error e => on_exception w e
                      | Ok size =>
                          (w, Returns (Recovered source dest file_hash size))
                      end
                  end
              end
          end
      end
  end.

(** The "recover all" loop of [main]: every successful result is appended
    to [recovered_files]; an exception that leaves [recover_file] leaves
    the loop and [main] with it. *)
Fixpoint main_recover_all (w : world) (scan_results : list found_file)
    (recovered_files : list recover_result)
    : world * list recover_result * option exn :=
  match scan_results with
  | [] => (w, recovered_files, None)
  | item :: rest =>
      match recover_file w item None with
      | (w', Returns result) =>
          main_recover_all w' rest
            (if success result then recovered_files ++ [result]
             else recovered_files)
      | (w', Raises e) => (w', recovered_files, Some e)
      end
  end.

End Tool.

(** *** The summaries of [main] and [generate_report]

    A counting dict, in insertion order. *)
Definition counts := list (string * Z).

(** [d.get(k, default)] *)
Fixpoint dict_get (d : counts) (k : string) (default : Z) : Z :=
  match d with
  | [] => default
  | (k', v) :: rest => if String.eqb k' k then v else dict_get rest k default
  end.

(** [d[k] = v]: an existing key keeps its place, a new one goes last. *)
Fixpoint dict_set (d : counts) (k : string) (v : Z) : counts :=
  match d with
  | [] => [(k, v)]
  | (k', v') :: rest =>
      if String.eqb k' k then (k', v) :: rest else (k', v') :: dict_set rest k v
  end.

(** [by_source[source] = by_source.get(source, 0) + 1] over the items. *)
Definition count_by (key : found_file -> string) (scan_results : list found_file)
    : counts :=
  fold_left (fun d item => dict_set d (key item) (dict_get d (key item) 0 + 1))
            scan_results [].

(** The three accumulators of the "view scan summary" branch of [main]:
    [by_type], [by_source], [total_size]. *)
Definition scan_summary (scan_results : list found_file) : counts * counts * Z :=
  fold_left
    (fun '(by_type, by_source, total_size) item =>
       (dict_set by_type (ff_type item) (dict_get by_type (ff_type item) 0 + 1),
        dict_set by_source (ff_source item) (dict_get by_source (ff_source item) 0 + 1),
        total_size + ff_size item))
    scan_results ([], [], 0).


(** *** The "recover selected files" branch of [main] *)

Section Selection.

Variable pf : platform.
Variable recovery_path : path.
(** [int(x.strip())]; [None] stands for [ValueError]. *)
Variable int_of_string : string -> option Z.

(** [[int(x.strip()) - 1 for x in ...]]: the first bad piece raises before
    anything is recovered. *)
Fixpoint parse_indices (pieces : list string) : option (list Z) :=
  match pieces with
  | [] => Some []
  | x :: rest =>
      match int_of_string x with
      | None => None
      | Some n =>
          match parse_indices rest with
          | None => None
          | Some indices => Some (n - 1 :: indices)
          end
      end
  end.

(** [for idx in indices: if 0 <= idx < len(scan_results[:20]): ...]; the
    loop stands in the [try] whose [except ValueError] prints and goes on. *)
Fixpoint recover_indices (w : world) (scan_results : list found_file)
    (indices : list Z) (recovered_files : list recover_result)
    : world * list recover_result * option exn :=
  match indices with
  | [] => (w, recovered_files, None)
  | idx :: rest =>
      if (0 <=? idx) && (idx <? len (firstn 20 scan_results)) then
        match nth_error scan_results (Z.to_nat idx) with
        | Some item =>
            match recover_file pf recovery_path w item None with
            | (w', Returns result) =>
                recover_indices w' scan_results rest
                  (if success result then recovered_files ++ [result]
                   else recovered_files)
            | (w', Raises e) =>
                (w', recovered_files,
                 match e with ValueError => None | _ => Some e end)
            end
        | None => (w, recovered_files, None)
        end
      else recover_indices w scan_results rest recovered_files
  end.

(** The branch, given the text typed (already stripped and lowered). *)
Definition main_recover_selected (w : world) (scan_results : list found_file)
    (recovered_files : list recover_result) (selection : string)
    : world * list recover_result * option exn :=
  match scan_results with
  | [] => (w, recovered_files, None)
  | _ :: _ =>
      if String.eqb selection "a" then
        main_recover_all pf recovery_path w
          (firstn 20 scan_results) recovered_files
      else if String.eqb selection "c" then (w, recovered_files, None)
      else
        match parse_indices (split "," selection) with
        | Some indices => recover_indices w scan_results indices recovered_files
        | None => (w, recovered_files, None)
        end
  end.

End Selection.

End Universal.

(** ** Notions the statements are phrased with *)

Import Android.

(** Successive elements of [l] are at least [gap] apart. *)
Fixpoint spaced (gap : Z) (l : list Z) : Prop :=
  match l with
  | a :: (b :: _) as rest => a + gap <= b /\ spaced gap rest
  | _ => True
  end.

(** The offsets one pattern's [while] loop reports when started at [pos]:
    the leftmost occurrence from [pos] on, then the same again from just
    behind it. *)
Inductive greedy (data sig : bytes) : Z -> list Z -> Prop :=
| greedy_stop pos :
    find data sig pos = -1 -> greedy data sig pos []
| greedy_hit pos offs :
    find data sig pos <> -1 ->
    greedy data sig (find data sig pos + len sig) offs ->
    greedy data sig pos (find data sig pos :: offs).

(** The records of one (tag, pattern) pair. *)
Definition block (file_type : string) (sig : bytes) (offs : list Z)
    : list carved_file :=
  map (fun o => mk_carved file_type o (hex sig)) offs.

(** The whole result: one block per (tag, pattern) pair, in table order. *)
Inductive carved_by (data : bytes) : list (string * bytes) -> list carved_file -> Prop :=
| carved_nil : carved_by data [] []
| carved_cons file_type sig rest offs out :
    greedy data sig 0 offs ->
    carved_by data rest out ->
    carved_by data ((file_type, sig) :: rest) (block file_type sig offs ++ out).

(** The record carries tag [file_type] and the hex of [sig]. *)
Definition reported_for (file_type : string) (sig : bytes) (e : carved_file) : bool :=
  String.eqb (cf_type e) file_type && String.eqb (cf_signature e) (hex sig).

(** The offsets reported for a pattern, whatever the tag. *)
Definition offsets_of_pattern (sig : bytes) (out : list carved_file) : list Z :=
  map cf_offset (filter (fun e => String.eqb (cf_signature e) (hex sig)) out).

(** The offsets reported for a (tag, pattern) pair. *)
Definition offsets_of (file_type : string) (sig : bytes) (out : list carved_file)
    : list Z :=
  map cf_offset (filter (reported_for file_type sig) out).

(** How many buffer bytes a record stands for: those its [signature] field
    spells out in hex. *)
Definition recorded_length (e : carved_file) : Z :=
  Z.of_nat (String.length (cf_signature e)) / 2.

(** *** The carving policy of the specification, in its words

    "extraction length = min(registered maximum size for the matched tag if
    present, distance to the next candidate match of any tag at a higher
    offset, a hard safety cap)". *)
Module Policy.

Definition registered_maximum (file_type : string) : option Z :=
  match List.find (fun kv => String.eqb (fst kv) file_type) Universal.typical_sizes with
  | Some (_, (_, maximum)) => Some maximum
  | None => None
  end.

Definition min_with (bound : option Z) (x : Z) : Z :=
  match bound with
  | Some b => Z.min b x
  | None => x
  end.

(** Distance from [off] to the nearest candidate at a higher offset. *)
Fixpoint next_candidate_distance (cands : list carved_file) (off : Z) : option Z :=
  match cands with
  | [] => None
  | c :: rest =>
      let later := next_candidate_distance rest off in
      if off <? cf_offset c
      then Some (min_with later (cf_offset c - off))
      else later
  end.

Definition extraction_length (cap : Z) (cands : list carved_file) (c : carved_file) : Z :=
  min_with (registered_maximum (cf_type c))
    (min_with (next_candidate_distance cands (cf_offset c)) cap).

(** "test patterns longest-first; first full prefix match wins; if multiple
    tags tie at the same length, the one registered first wins". *)
Fixpoint longest_first (candidates : list (string * bytes)) (window : bytes)
    (best : option (string * bytes)) : option (string * bytes) :=
  match candidates with
  | [] => best
  | (file_type, sig) :: rest =>
      let best' :=
        if startswith window sig then
          match best with
          | Some (_, b) => if len b <? len sig then Some (file_type, sig) else best
          | None => Some (file_type, sig)
          end
        else best in
      longest_first rest window best'
  end.

Definition select (sigs : registry) (window : bytes) : string :=
  match longest_first (pairs sigs) window None with
  | Some (file_type, _) => file_type
  | None => "unknown"
  end.

End Policy.

Import Universal.

(** [n] at path [p] is reached from the directory [d] at [dir] through
    directories that can be listed and, above the last one, searched;
    [a] says whether the last one, which lists [n], can be searched. *)
Inductive visible : path -> node -> path -> bool -> node -> Prop :=
| visible_child dir name w x children c :
    In c children ->
    visible dir (Dir name true w x children) (dir ++ [node_name c]) x c
| visible_below dir name w children c p a n :
    In c children ->
    visible (dir ++ [node_name c]) c p a n ->
    visible dir (Dir name true w true children) p a n.

(** What one turn of the scan loop adds to the entries found, and whether
    it ends the scan. *)
Definition entries_of (pf : platform) (file_types : option (list string))
    (item : path * bool * node) : list found_file :=
  match scan_item pf file_types [] item with
  | Next found_files => found_files
  | Stop found_files _ => found_files
  end.

Definition stops (pf : platform) (file_types : option (list string))
    (item : path * bool * node) : option exn :=
  match scan_item pf file_types [] item with
  | Next _ => None
  | Stop _ e => Some e
  end.


(** What [write] is given in [shutil.copy2] and in [log]: a leaf that makes
    a file of the name asked for, and refuses a directory. *)
Definition leaf_makes_files (leaf : string -> option node -> result node) : Prop :=
  (forall c old k, leaf c old = Ok k ->
     exists r w ct mt, k = File c r w ct mt) /\
  (forall c nm l w x ch k, leaf c (Some (Dir nm l w x ch)) <> Ok k).

(** [q] leads to [p] or above it. *)
Fixpoint is_prefix (q p : path) : bool :=
  match q, p with
  | [], _ => true
  | c :: q', d :: p' => String.eqb c d && is_prefix q' p'
  | _ :: _, [] => false
  end.

(** The list a call of [scan_drive_deep] returns; none when it raises. *)
Definition returned (r : world * result (list found_file)) : list found_file :=
  match r with
  | (_, Ok found_files) => found_files
  | (_, Error _) => []
  end.

(** The exception the outer [except] of [scan_drive_deep] catches, if the
    [try] is reached and left by one. *)
Definition scan_caught (pf : platform) (recovery_path : path) (w : world)
    (drive_path : path) (file_types : option (list string)) : option exn :=
  match log pf recovery_path w (Log_scan_start drive_path) with
  | (w, Ok _) => snd (scan_try pf recovery_path w drive_path file_types)
  | (_, Error _) => None
  end.

(** The calls of [recover_file] the recover-all loop makes on [items]: for
    each, the world it starts in, the candidate and how the call ends. *)
Fixpoint calls (pf : platform) (recovery_path : path) (w : world)
    (items : list found_file) : list (world * found_file * outcome) :=
  match items with
  | [] => []
  | item :: rest =>
      match recover_file pf recovery_path w item None with
      | (w', Returns r) =>
          (w, item, Returns r) :: calls pf recovery_path w' rest
      | (w', Raises e) => [(w, item, Raises e)]
      end
  end.

(** The dicts of the calls that succeeded, in call order. *)
Definition successes (trace : list (world * found_file * outcome))
    : list recover_result :=
  flat_map (fun c => match snd c with
                     | Returns (Recovered s d h n) => [Recovered s d h n]
                     | _ => []
                     end) trace.

(** The folder a call of [recover_file] in world [w] copies into, and the
    place of the copy, when no [output_dir] is given. *)
Definition recovery_folder (pf : platform) (recovery_path : path) (w : world)
    : path :=
  recovery_path ++ [strftime_now pf (w_clock w)].

Definition destination (pf : platform) (recovery_path : path) (w : world)
    (file_info : found_file) : path :=
  recovery_folder pf recovery_path w ++ [last (ff_path file_info) EmptyString].

(** ** Concrete inputs *)

Definition jpeg_magic : bytes := [xff; xd8; xff].
Definition png_magic : bytes := [x89; x50; x4e; x47; x0d; x0a; x1a; x0a].
Definition pk_magic : bytes := [x50; x4b; x03; x04].

(** A JPEG signature at offset 100 and a PNG signature at offset 5000, in
    filler that matches nothing. *)
Definition jpeg_png_buffer : bytes :=
  repeat x41 100 ++ jpeg_magic ++ repeat x41 4897 ++ png_magic ++ repeat x41 100.

Definition jpeg_at_100 : carved_file := mk_carved "jpg" 100 "ffd8ff".
Definition png_at_5000 : carved_file := mk_carved "png" 5000 "89504e47".

(** Two JPEG signatures sharing their middle [ff]: offsets 0 and 2. *)
Definition overlapping_jpeg : bytes := [xff; xd8; xff; xd8; xff].

(** Two tags whose patterns are [AB] and [ABC], the shorter registered
    first, and a 16-byte window that starts with [ABC]. *)
Definition ab_abc : Universal.registry :=
  [ ("ab"%string, [[x41; x42]]); ("abc"%string, [[x41; x42; x43]]) ].
Definition abc_window : bytes := [x41; x42; x43] ++ repeat x00 13.

(** Ten bytes that start with the [bmp] pattern [42 4d]. *)
Definition bmp_window : bytes := [x42; x4d] ++ repeat x00 8.

(** The length of the longest pattern of a table. *)
Definition longest_pattern (sigs : Universal.registry) : Z :=
  fold_right (fun p m => Z.max (len (snd p)) m) 0 (pairs sigs).

(** What [recover_file] can copy from [p]: the content of a readable file. *)
(** What [recover_file] can copy from [p]: the content of a readable file. *)
Definition content_at (fs : node) (p : path) : option bytes :=
  match lookup fs p with
  | Found (File _ true _ content _) => Some content
  | _ => None
  end.

(** The [source] of a recovered entry. *)
Definition rr_source (r : recover_result) : path :=
  match r with
  | Recovered source _ _ _ => source
  | Failure _ => []
  end.

(** The [hash] of a recovered entry. *)
Definition rr_hash (r : recover_result) : string :=
  match r with
  | Recovered _ _ hash _ => hash
  | Failure _ => EmptyString
  end.

(** A PNG header followed by eight more bytes: sixteen in all. *)
Definition png_16 : bytes := png_magic ++ repeat x00 8.

(** The fifteen bytes of the [sqlite] pattern, the longest one. *)
Definition sqlite_window : bytes :=
  [x53; x51; x4c; x69; x74; x65; x20; x66; x6f; x72; x6d; x61; x74; x20; x33].

(** Two JPEG signatures, at offsets 0 and 10. *)
Definition two_jpeg_buffer : bytes :=
  jpeg_magic ++ repeat x41 7 ++ jpeg_magic ++ [x41].

(** A platform to run examples on: the clock stands at one second; times
    of the years 1 to 9999 make a datetime and others raise [ValueError],
    as CPython has it under UTC; no administrator rights. *)
Definition demo_platform (sha : bytes -> string) (line : nat -> log_event -> bytes)
    : platform :=
  mk_platform sha (fun _ => "20240101_120000"%string) (fun _ => 1704110400) line
    (fun t => if (-62135510400 <=? t) && (t <? 253402300800) then Ok tt
              else Error ValueError)
    4096 false.

(** The recovery directory as the tool leaves it on start. *)
Definition recovery_dir : node :=
  Dir "forensic_recovery" true true true [File "forensic_log.txt" true true [] 0].

(** A root holding a directory [evidence] with the given entries, and the
    recovery directory beside it. *)
Definition with_evidence (entries : list node) : node :=
  Dir "" true true true [Dir "evidence" true true true entries; recovery_dir].

(** One file: the eight PNG magic bytes. *)
Definition bare_png_tree : node :=
  with_evidence [File "a.png" true true png_magic 0].

(** One file: a PNG header and eight more bytes. *)
Definition single_png_tree : node :=
  with_evidence [File "a.png" true true png_16 0].

(** Two files of identical content. *)
Definition twin_tree : node :=
  with_evidence [File "a.png" true true png_16 0; File "b.png" true true png_16 0].

(** One empty file. *)
Definition empty_file_tree : node :=
  with_evidence [File "empty.jpg" true true [] 0].



(** A subdirectory that can be listed but not searched, beside one that is
    open and holds a readable file. *)
Definition list_only_tree : node :=
  with_evidence
    [Dir "listed" true true false [File "hidden.png" true true png_16 0];
     Dir "open" true true true [File "a.png" true true png_16 7]].

(** The same with the first subdirectory closed altogether, and with a
    file that cannot be read in the open one. *)
Definition locked_tree : node :=
  with_evidence
    [Dir "locked" false false false [File "hidden.png" true true png_16 0];
     Dir "open" true true true [File "noread.png" false false png_16 0;
                                File "a.png" true true png_16 7]].

(** A file whose time lies beyond the year 9999, before a file that is in
    order. *)
Definition bad_time_tree : node :=
  with_evidence
    [File "a.png" true true png_16 1000000000000;
     File "b.pdf" true true ([x25; x50; x44; x46] ++ repeat x00 12) 0].


(** The recovery path of the tool. *)
Definition demo_recovery_path : path := ["forensic_recovery"%string].

(** A platform with everything fixed: the hex of the bytes stands in for
    their SHA-256, and every log line is a line feed. *)
Definition plain_platform : platform :=
  demo_platform hex (fun _ _ => [x0a]).

(** A picture and a document side by side. *)
Definition mixed_tree : node :=
  with_evidence
    [File "a.png" true true png_16 0;
     File "b.pdf" true true ([x25; x50; x44; x46] ++ repeat x00 12) 0].
(** No pattern of the table is a proper prefix of another one. *)
Definition no_proper_prefix (l : list (string * bytes)) : bool :=
  forallb (fun p =>
             forallb (fun q =>
                        negb (startswith (snd q) (snd p))
                        || (len (snd p) =? len (snd q))) l) l.


(** Every pattern of tag [t] has a pattern of an earlier entry as a prefix
    ([earlier] holds the patterns seen so far). *)
Fixpoint shadowed (earlier : list bytes) (sigs : Universal.registry) (t : string)
    : bool :=
  match sigs with
  | [] => true
  | (file_type, signatures) :: rest =>
      (if String.eqb file_type t
       then forallb (fun s => existsb (startswith s) earlier) signatures
       else true)
      && shadowed (earlier ++ signatures) rest t
  end.

(** The items an index list selects among the first twenty results. *)
Definition selected (scan_results : list found_file) (indices : list Z)
    : list found_file :=
  flat_map (fun idx =>
              if (0 <=? idx) && (idx <? len (firstn 20 scan_results)) then
                match nth_error scan_results (Z.to_nat idx) with
                | Some item => [item]
                | None => []
                end
              else []) indices.

(** The sum of the counts of a counting dict. *)
Definition total (d : counts) : Z := fold_right (fun kv acc => snd kv + acc) 0 d.

(** The first tag, in table order, that registers the pattern [sig]. *)
Definition first_tag_of (l : list (string * bytes)) (sig : bytes) : string :=
  match List.find (fun p => if list_eq_dec Byte.byte_eq_dec (snd p) sig
                            then true else false) l with
  | Some (file_type, _) => file_type
  | None => "unknown"
  end.

(** One step of a counting loop: [d[key] = d.get(key, 0) + 1]. *)
Definition increment (key : found_file -> string) (d : counts) (item : found_file)
    : counts :=
  dict_set d (key item) (dict_get d (key item) 0 + 1).

(** The character [c] appears in [s]. *)
Fixpoint has_char (c : ascii) (s : string) : bool :=
  match s with
  | EmptyString => false
  | String x rest => Ascii.eqb x c || has_char c rest
  end.


(** * Theorems *)

(** ** Facts about the primitives *)

Lemma startswith_firstn (data sig : bytes) :
  startswith data sig = true <-> firstn (length sig) data = sig.
Proof.
  revert data; induction sig as [|s sig IH]; intros data; simpl.
  - split; reflexivity.
  - destruct data as [|d data]; simpl.
    + split; discriminate.
    + rewrite andb_true_iff, IH. split.
      * intros [E ->]. apply Byte.byte_dec_bl in E. now subst.
      * intros E. injection E as -> E. split; [apply Byte.byte_dec_lb; reflexivity|].
        now rewrite E.
Qed.

Lemma startswith_length (data sig : bytes) :
  startswith data sig = true -> (length sig <= length data)%nat.
Proof.
  rewrite startswith_firstn. intros E.
  rewrite <- E at 1. rewrite length_firstn. lia.
Qed.

Lemma hex_byte_roundtrip (x : byte) (rest : bytes) :
  fromhex (hex (x :: rest)) =
  match fromhex (hex rest) with Some bs => Some (x :: bs) | None => None end.
Proof. destruct x; reflexivity. Qed.

Lemma fromhex_hex (b : bytes) : fromhex (hex b) = Some b.
Proof.
  induction b as [|x rest IH]; [reflexivity|].
  rewrite hex_byte_roundtrip, IH. reflexivity.
Qed.

Lemma hex_inj (a b : bytes) : hex a = hex b -> a = b.
Proof.
  intros E. apply (f_equal fromhex) in E.
  rewrite !fromhex_hex in E. congruence.
Qed.

Lemma hex_length (b : bytes) :
  Z.of_nat (String.length (hex b)) = 2 * len b.
Proof.
  unfold len. induction b as [|x rest IH]; simpl String.length; simpl length; lia.
Qed.

Lemma find_from_spec (data sig : bytes) (i : Z) :
  (find_from data sig i = -1 /\
   forall k, (k <= length data)%nat -> startswith (skipn k data) sig = false)
  \/
  (exists k, (k <= length data)%nat /\
     find_from data sig i = i + Z.of_nat k /\
     startswith (skipn k data) sig = true /\
     forall j, (j < k)%nat -> startswith (skipn j data) sig = false).
Proof.
  revert i; induction data as [|d data IH]; intros i; simpl find_from.
  - destruct (startswith [] sig) eqn:E.
    + right. exists 0%nat. simpl. repeat split; [lia | lia | assumption | lia].
    + left. split; [reflexivity|]. intros k Hk. simpl in Hk.
      replace k with 0%nat by lia. exact E.
  - destruct (startswith (d :: data) sig) eqn:E.
    + right. exists 0%nat. simpl. repeat split; [lia | lia | assumption | lia].
    + destruct (IH (i + 1)) as [[R N] | (k & Hk & R & Y & N)].
      * left. split; [exact R|]. intros [|k] Hk; [exact E|].
        simpl. apply N. simpl in Hk. lia.
      * right. exists (S k). simpl length. repeat split.
        -- lia.
        -- rewrite R. lia.
        -- exact Y.
        -- intros [|j] Hj; [exact E|]. simpl. apply N. lia.
Qed.

Lemma find_in_range (data sig : bytes) (start : Z) :
  0 <= start ->
  find data sig start = -1 \/ start <= find data sig start <= len data.
Proof.
  intros H0. unfold find.
  destruct (start <? 0) eqn:Neg; [apply Z.ltb_lt in Neg; lia|].
  destruct (len data <? start) eqn:Far; [now left|].
  apply Z.ltb_ge in Far.
  destruct (find_from_spec (skipn (Z.to_nat start) data) sig start)
    as [[R _] | (k & Hk & R & _ & _)]; [now left|].
  right. rewrite R. rewrite length_skipn in Hk. unfold len in *. lia.
Qed.

Lemma find_miss (data sig : bytes) (start : Z) :
  0 <= start -> find data sig start = -1 ->
  forall p, start <= p -> ~ occurs data sig p.
Proof.
  intros H0 R p Hp [[_ Hle] Occ]. unfold find in R.
  destruct (start <? 0) eqn:Neg; [apply Z.ltb_lt in Neg; lia|].
  destruct (len data <? start) eqn:Far.
  - apply Z.ltb_lt in Far. lia.
  - apply Z.ltb_ge in Far.
    destruct (find_from_spec (skipn (Z.to_nat start) data) sig start)
      as [[_ N] | (k & Hk & R' & _ & _)].
    + specialize (N (Z.to_nat p - Z.to_nat start)%nat).
      rewrite skipn_skipn in N.
      replace (Z.to_nat p - Z.to_nat start + Z.to_nat start)%nat
        with (Z.to_nat p) in N by lia.
      rewrite N in Occ; [discriminate|].
      rewrite length_skipn. unfold len in *. lia.
    + rewrite R' in R. lia.
Qed.

Lemma find_hit (data sig : bytes) (start : Z) :
  0 <= start -> find data sig start <> -1 ->
  start <= find data sig start /\
  occurs data sig (find data sig start) /\
  forall p, start <= p < find data sig start -> ~ occurs data sig p.
Proof.
  intros H0 R. unfold find in *.
  destruct (start <? 0) eqn:Neg; [apply Z.ltb_lt in Neg; lia|].
  destruct (len data <? start) eqn:Far; [congruence|].
  apply Z.ltb_ge in Far.
  destruct (find_from_spec (skipn (Z.to_nat start) data) sig start)
    as [[R' _] | (k & Hk & R' & Y & N)]; [congruence|].
  rewrite R'. rewrite length_skipn in Hk. rewrite skipn_skipn in Y.
  split; [lia|]. split.
  - unfold occurs. split; [unfold len in *; lia|].
    replace (Z.to_nat (start + Z.of_nat k)) with (k + Z.to_nat start)%nat by lia.
    exact Y.
  - intros p Hp [_ Occ].
    specialize (N (Z.to_nat p - Z.to_nat start)%nat).
    rewrite skipn_skipn in N.
    replace (Z.to_nat p - Z.to_nat start + Z.to_nat start)%nat
      with (Z.to_nat p) in N by lia.
    rewrite N in Occ; [discriminate | lia].
Qed.

Lemma occurs_fits (data sig : bytes) (p : Z) :
  occurs data sig p -> p + len sig <= len data.
Proof.
  intros [[H0 Hle] Occ]. apply startswith_length in Occ.
  rewrite length_skipn in Occ. unfold len in *. lia.
Qed.

Lemma occurs_slice (data sig : bytes) (p : Z) :
  occurs data sig p -> slice data p (p + len sig) = sig.
Proof.
  intros [_ Occ]. unfold slice, len.
  replace (Z.to_nat (p + Z.of_nat (length sig) - p)) with (length sig) by lia.
  now apply startswith_firstn.
Qed.


(** ** The buffer scan: what the loops compute *)

Section BufferScan.

Variable data : bytes.

Lemma scan_signature_greedy (file_type : string) (sig : bytes) (fuel : nat) :
  forall pos carved out,
    scan_signature fuel data file_type sig pos carved = Some out ->
    exists offs, greedy data sig pos offs /\ out = carved ++ block file_type sig offs.
Proof.
  induction fuel as [|fuel IH]; intros pos carved out H; simpl in H; [discriminate|].
  destruct (find data sig pos =? -1) eqn:E.
  - apply Z.eqb_eq in E. injection H as <-.
    exists []. split; [now constructor | now rewrite app_nil_r].
  - apply Z.eqb_neq in E. apply IH in H as (offs & G & ->).
    exists (find data sig pos :: offs). split; [now constructor|].
    now rewrite <- app_assoc.
Qed.

Lemma carved_by_app l1 l2 o1 o2 :
  carved_by data l1 o1 -> carved_by data l2 o2 ->
  carved_by data (l1 ++ l2) (o1 ++ o2).
Proof.
  induction 1 as [|t sig rest offs out G _ IH]; intros H2; simpl; [exact H2|].
  rewrite <- app_assoc. constructor; auto.
Qed.

Lemma scan_signatures_carved (file_type : string) (fuel : nat) (signatures : list bytes) :
  forall carved out,
    scan_signatures fuel data file_type signatures carved = Some out ->
    exists out', carved_by data (map (pair file_type) signatures) out' /\
                 out = carved ++ out'.
Proof.
  induction signatures as [|sig rest IH]; intros carved out H; simpl in H.
  - injection H as <-. exists []. split; [constructor | now rewrite app_nil_r].
  - destruct (scan_signature fuel data file_type sig 0 carved) as [c|] eqn:E;
      [|discriminate].
    apply scan_signature_greedy in E as (offs & G & ->).
    apply IH in H as (out' & C & ->).
    exists (block file_type sig offs ++ out'). split.
    + simpl. now constructor.
    + now rewrite app_assoc.
Qed.

Lemma scan_items_carved (fuel : nat) (sigs : Android.registry) :
  forall carved out,
    scan_items fuel data sigs carved = Some out ->
    exists out', carved_by data (pairs sigs) out' /\ out = carved ++ out'.
Proof.
  induction sigs as [|[file_type signatures] rest IH]; intros carved out H; simpl in H.
  - injection H as <-. exists []. split; [constructor | now rewrite app_nil_r].
  - destruct (scan_signatures fuel data file_type signatures carved) as [c|] eqn:E;
      [|discriminate].
    apply scan_signatures_carved in E as (o1 & C1 & ->).
    apply IH in H as (o2 & C2 & ->).
    exists (o1 ++ o2). split.
    + simpl. now apply carved_by_app.
    + now rewrite app_assoc.
Qed.

Lemma carve_structure (sigs : Android.registry) (fuel : nat) (out : list carved_file) :
  carve_files_from_data_with sigs fuel data = Some out ->
  carved_by data (pairs sigs) out.
Proof.
  intros H. apply scan_items_carved in H as (out' & C & ->). exact C.
Qed.

(** *** One pattern's offsets *)

Lemma greedy_sound (sig : bytes) (pos : Z) (offs : list Z) :
  greedy data sig pos offs -> 0 <= pos ->
  Forall (fun o => pos <= o /\ occurs data sig o) offs.
Proof.
  induction 1 as [pos R | pos offs R G IH]; intros H0; [constructor|].
  destruct (find_hit data sig pos H0 R) as (Hge & Occ & _).
  pose proof (occurs_fits _ _ _ Occ) as Fit.
  assert (0 <= len sig) by (unfold len; lia).
  constructor; [now split|].
  eapply Forall_impl; [|apply IH; lia].
  simpl. intros o [Ho Oo]. split; [lia | exact Oo].
Qed.

Lemma find_empty (pos : Z) :
  0 <= pos <= len data -> find data [] pos = pos.
Proof.
  intros H. unfold find.
  destruct (pos <? 0) eqn:Neg; [apply Z.ltb_lt in Neg; lia|].
  destruct (len data <? pos) eqn:Far; [apply Z.ltb_lt in Far; lia|].
  destruct (skipn (Z.to_nat pos) data); reflexivity.
Qed.

Lemma greedy_pattern_nonempty (sig : bytes) (pos : Z) (offs : list Z) :
  greedy data sig pos offs -> 0 <= pos <= len data -> 0 < len sig.
Proof.
  induction 1 as [pos R | pos offs R G IH]; intros H0.
  - destruct sig as [|s sig]; [|unfold len; simpl; lia].
    rewrite find_empty in R by exact H0. lia.
  - destruct sig as [|s sig]; [|unfold len; simpl; lia].
    apply IH. rewrite find_empty by exact H0. unfold len in *. simpl. lia.
Qed.

Lemma greedy_spaced (sig : bytes) (pos : Z) (offs : list Z) :
  greedy data sig pos offs -> 0 <= pos -> spaced (len sig) offs.
Proof.
  induction 1 as [pos R | pos offs R G IH]; intros H0; [exact I|].
  destruct (find_hit data sig pos H0 R) as (Hge & _ & _).
  assert (0 <= len sig) by (unfold len; lia).
  assert (H1 : 0 <= find data sig pos + len sig) by lia.
  specialize (IH H1).
  destruct offs as [|b offs]; [exact I|].
  split; [|exact IH].
  apply greedy_sound in G; [|exact H1].
  inversion G as [|? ? [Hb _] _]; subst. exact Hb.
Qed.

Lemma greedy_complete (sig : bytes) (pos : Z) (offs : list Z) :
  greedy data sig pos offs -> 0 <= pos ->
  forall p, pos <= p -> occurs data sig p ->
    In p offs \/ exists q, In q offs /\ q < p < q + len sig.
Proof.
  induction 1 as [pos R | pos offs R G IH]; intros H0 p Hp Occ.
  - exfalso. eapply find_miss; eauto.
  - destruct (find_hit data sig pos H0 R) as (Hge & _ & Before).
    assert (0 <= len sig) by (unfold len; lia).
    destruct (Z.lt_ge_cases p (find data sig pos)) as [Lt | Ge].
    { exfalso. apply (Before p); [lia | exact Occ]. }
    destruct (Z.eq_dec p (find data sig pos)) as [-> | Ne]; [left; now left|].
    destruct (Z.lt_ge_cases p (find data sig pos + len sig)) as [In1 | Out].
    + right. exists (find data sig pos). split; [now left | lia].
    + destruct (IH ltac:(lia) p Out Occ) as [I1 | (q & Iq & Hq)].
      * left. now right.
      * right. exists q. split; [now right | exact Hq].
Qed.

(** *** Termination of the loops *)

Lemma scan_signature_terminates (file_type : string) (sig : bytes) :
  0 < len sig ->
  forall fuel pos carved,
    0 <= pos -> Z.max 0 (len data - pos) < Z.of_nat fuel ->
    exists out, scan_signature fuel data file_type sig pos carved = Some out.
Proof.
  intros Hsig. induction fuel as [|fuel IH]; intros pos carved H0 Hf; [lia|].
  simpl. destruct (find data sig pos =? -1) eqn:E; [eauto|].
  apply Z.eqb_neq in E.
  destruct (find_hit data sig pos H0 E) as (Hge & Occ & _).
  apply occurs_fits in Occ.
  apply IH; lia.
Qed.

Lemma scan_signature_fuel (file_type : string) (sig : bytes) (fuel : nat) :
  forall pos carved out,
    scan_signature fuel data file_type sig pos carved = Some out ->
    forall fuel', (fuel <= fuel')%nat ->
      scan_signature fuel' data file_type sig pos carved = Some out.
Proof.
  induction fuel as [|fuel IH]; intros pos carved out H fuel' Hle; [discriminate|].
  destruct fuel' as [|fuel']; [lia|]. simpl in *.
  destruct (find data sig pos =? -1); [exact H|].
  eapply IH; [exact H | lia].
Qed.

Lemma scan_signatures_terminate (file_type : string) (signatures : list bytes) :
  (forall sig, In sig signatures -> sig <> []) ->
  forall carved, exists out, forall fuel,
    (length data < fuel)%nat ->
    scan_signatures fuel data file_type signatures carved = Some out.
Proof.
  induction signatures as [|sig rest IH]; intros Hne carved; simpl.
  - eauto.
  - assert (Hsig : 0 < len sig).
    { specialize (Hne sig (or_introl eq_refl)).
      destruct sig; [congruence | unfold len; simpl; lia]. }
    destruct (scan_signature_terminates file_type sig Hsig (S (length data)) 0 carved)
      as [c Hc]; [lia | unfold len; lia |].
    destruct (IH (fun s Hs => Hne s (or_intror Hs)) c) as [out Hout].
    exists out. intros fuel Hf.
    rewrite (scan_signature_fuel _ _ _ _ _ _ Hc fuel) by lia.
    now apply Hout.
Qed.

Lemma scan_items_terminate (sigs : Android.registry) :
  (forall file_type sig, In (file_type, sig) (pairs sigs) -> sig <> []) ->
  forall carved, exists out, forall fuel,
    (length data < fuel)%nat -> scan_items fuel data sigs carved = Some out.
Proof.
  induction sigs as [|[file_type signatures] rest IH]; intros Hne carved; simpl.
  - eauto.
  - destruct (scan_signatures_terminate file_type signatures) with (carved := carved)
      as [c Hc].
    { intros sig Hs. apply (Hne file_type). simpl. apply in_or_app. left.
      now apply in_map. }
    destruct (IH (fun t s Hs => Hne t s (in_or_app _ _ _ (or_intror Hs))) c)
      as [out Hout].
    exists out. intros fuel Hf. rewrite Hc by exact Hf. now apply Hout.
Qed.

Lemma scan_signatures_fuel (file_type : string) (fuel fuel' : nat)
    (signatures : list bytes) :
  (fuel <= fuel')%nat ->
  forall carved out,
    scan_signatures fuel data file_type signatures carved = Some out ->
    scan_signatures fuel' data file_type signatures carved = Some out.
Proof.
  intros Hle. induction signatures as [|sig rest IH]; intros carved out H; simpl in *.
  - exact H.
  - destruct (scan_signature fuel data file_type sig 0 carved) as [c|] eqn:E;
      [|discriminate].
    rewrite (scan_signature_fuel _ _ _ _ _ _ E fuel' Hle). now apply IH.
Qed.

Lemma carve_fuel (sigs : Android.registry) (fuel fuel' : nat) (out : list carved_file) :
  (fuel <= fuel')%nat ->
  carve_files_from_data_with sigs fuel data = Some out ->
  carve_files_from_data_with sigs fuel' data = Some out.
Proof.
  unfold carve_files_from_data_with. intros Hle. generalize (@nil carved_file).
  induction sigs as [|[file_type signatures] rest IH]; intros carved H; simpl in *.
  - exact H.
  - destruct (scan_signatures fuel data file_type signatures carved) as [c|] eqn:E;
      [|discriminate].
    rewrite (scan_signatures_fuel _ _ _ _ Hle _ _ E). now apply IH.
Qed.

End BufferScan.

(** *** Reading one pair's records out of the result *)

Lemma map_offset_block (file_type : string) (sig : bytes) (offs : list Z) :
  map cf_offset (block file_type sig offs) = offs.
Proof.
  unfold block. rewrite map_map. simpl. apply map_id.
Qed.

Lemma in_block (file_type : string) (sig : bytes) (offs : list Z) (e : carved_file) :
  In e (block file_type sig offs) <->
  exists o, In o offs /\ e = mk_carved file_type o (hex sig).
Proof.
  unfold block. rewrite in_map_iff. split; intros (o & A & B); exists o; auto.
Qed.

Lemma reported_for_iff (t t' : string) (sig sig' : bytes) (o : Z) :
  reported_for t sig (mk_carved t' o (hex sig')) = true <-> (t', sig') = (t, sig).
Proof.
  unfold reported_for. simpl. rewrite andb_true_iff, !String.eqb_eq. split.
  - intros [-> E]. apply hex_inj in E. now subst.
  - intros E. injection E as -> ->. auto.
Qed.

Lemma filter_block_same (t : string) (sig : bytes) (offs : list Z) :
  filter (reported_for t sig) (block t sig offs) = block t sig offs.
Proof.
  induction offs as [|o offs IH]; [reflexivity|]. simpl.
  replace (reported_for t sig (mk_carved t o (hex sig))) with true
    by (symmetry; now apply reported_for_iff).
  now rewrite IH.
Qed.

Lemma filter_block_other (t t' : string) (sig sig' : bytes) (offs : list Z) :
  (t', sig') <> (t, sig) ->
  filter (reported_for t sig) (block t' sig' offs) = [].
Proof.
  intros Ne. induction offs as [|o offs IH]; [reflexivity|]. simpl.
  destruct (reported_for t sig (mk_carved t' o (hex sig'))) eqn:E; [|exact IH].
  apply reported_for_iff in E. contradiction.
Qed.

Lemma pair_eq_dec (a b : string * bytes) : {a = b} + {a <> b}.
Proof.
  decide equality; [apply (list_eq_dec Byte.byte_eq_dec) | apply string_dec].
Qed.

Section Carved.

Variable data : bytes.

Lemma carved_by_in (l : list (string * bytes)) (out : list carved_file) :
  carved_by data l out ->
  forall e, In e out ->
    exists sig o, In (cf_type e, sig) l /\ e = mk_carved (cf_type e) o (hex sig) /\
                  occurs data sig o.
Proof.
  induction 1 as [|t sig rest offs out G C IH]; intros e He; [contradiction|].
  apply in_app_or in He as [He | He].
  - apply in_block in He as (o & Ho & ->). simpl.
    exists sig, o. split; [now left|]. split; [reflexivity|].
    apply greedy_sound in G; [|lia].
    rewrite Forall_forall in G. now apply G.
  - destruct (IH e He) as (sig' & o & A & B & Occ).
    exists sig', o. split; [now right|]. now split.
Qed.

Lemma carved_by_pair (l : list (string * bytes)) (out : list carved_file) :
  carved_by data l out ->
  forall t sig, In (t, sig) l ->
    exists offs, greedy data sig 0 offs /\
                 forall o, In o offs -> In (mk_carved t o (hex sig)) out.
Proof.
  induction 1 as [|t' sig' rest offs out G C IH]; intros t sig Hin; [contradiction|].
  destruct Hin as [E | Hin].
  - injection E as -> ->. exists offs. split; [exact G|].
    intros o Ho. apply in_or_app. left. apply in_block. eauto.
  - destruct (IH t sig Hin) as (offs' & G' & H'). exists offs'. split; [exact G'|].
    intros o Ho. apply in_or_app. right. auto.
Qed.

Lemma carved_by_absent (l : list (string * bytes)) (out : list carved_file) :
  carved_by data l out ->
  forall t sig, ~ In (t, sig) l -> filter (reported_for t sig) out = [].
Proof.
  induction 1 as [|t' sig' rest offs out G C IH]; intros t sig Hn; [reflexivity|].
  rewrite filter_app, filter_block_other, IH; [reflexivity | |].
  - intros Hin. apply Hn. now right.
  - intros E. apply Hn. now left.
Qed.

Lemma carved_by_offsets (l : list (string * bytes)) (out : list carved_file) :
  carved_by data l out -> NoDup l ->
  forall t sig, In (t, sig) l -> greedy data sig 0 (offsets_of t sig out).
Proof.
  induction 1 as [|t' sig' rest offs out G C IH]; intros ND t sig Hin; [contradiction|].
  inversion ND as [|? ? Hnot ND']; subst.
  unfold offsets_of. rewrite filter_app, map_app.
  destruct (pair_eq_dec (t', sig') (t, sig)) as [E | Ne].
  - injection E as -> ->.
    rewrite filter_block_same, map_offset_block.
    rewrite (carved_by_absent _ _ C _ _ Hnot). simpl. now rewrite app_nil_r.
  - rewrite filter_block_other by exact Ne. simpl.
    destruct Hin as [E | Hin]; [congruence|].
    now apply IH.
Qed.

End Carved.

Lemma empty_pattern_never_stops (data : bytes) (file_type : string) (fuel : nat) :
  forall pos carved,
    0 <= pos <= len data ->
    scan_signature fuel data file_type [] pos carved = None.
Proof.
  induction fuel as [|fuel IH]; intros pos carved H; [reflexivity|].
  simpl. rewrite find_empty by exact H.
  destruct (pos =? -1) eqn:E; [apply Z.eqb_eq in E; lia|].
  apply IH. unfold len in *. simpl. lia.
Qed.

(** ** The buffer scan: the claims *)

(** C9. For every finite buffer and every table whose patterns are all
    non-empty, the buffer scan terminates: once the fuel exceeds the
    buffer's length the scan returns, and returns the same finite list. *)
Theorem carve_terminates (sigs : Android.registry) (data : bytes) :
  (forall file_type sig, In (file_type, sig) (pairs sigs) -> sig <> []) ->
  exists out, forall fuel,
    (length data < fuel)%nat ->
    carve_files_from_data_with sigs fuel data = Some out.
Proof.
  intros Hne. unfold carve_files_from_data_with.
  now apply scan_items_terminate.
Qed.

Lemma android_patterns_nonempty :
  forall file_type sig,
    In (file_type, sig) (pairs Android.file_signatures) -> sig <> [].
Proof.
  intros file_type sig H. simpl in H.
  repeat (destruct H as [H | H]; [injection H as <- <-; discriminate|]).
  contradiction.
Qed.

Lemma carve_terminates_witness :
  (forall file_type sig,
     In (file_type, sig) (pairs Android.file_signatures) -> sig <> []) /\
  exists out, forall fuel,
    (length overlapping_jpeg < fuel)%nat ->
    carve_files_from_data fuel overlapping_jpeg = Some out.
Proof.
  split.
  - exact android_patterns_nonempty.
  - exact (carve_terminates Android.file_signatures overlapping_jpeg
             android_patterns_nonempty).
Defined.

(** C2, as the code has it. For every occurrence of a registered pattern,
    the scan either reports it under each tag that registers the pattern,
    or has reported an earlier occurrence of the same pattern under that tag
    which it overlaps (it starts less than the pattern's length behind it).
    Occurrences of other patterns never hide it. *)
Theorem carve_reports_unless_overlapped
    (sigs : Android.registry) (fuel : nat) (data : bytes) (out : list carved_file) :
  carve_files_from_data_with sigs fuel data = Some out ->
  forall file_type sig p,
    In (file_type, sig) (pairs sigs) -> occurs data sig p ->
    In (mk_carved file_type p (hex sig)) out \/
    exists q, In (mk_carved file_type q (hex sig)) out /\ q < p < q + len sig.
Proof.
  intros H file_type sig p Hin Occ.
  apply carve_structure in H.
  destruct (carved_by_pair _ _ _ H _ _ Hin) as (offs & G & Rep).
  destruct Occ as [Hp Occ].
  destruct (greedy_complete _ _ _ _ G ltac:(lia) p ltac:(lia) (conj Hp Occ))
    as [I1 | (q & Iq & Hq)].
  - left. auto.
  - right. exists q. auto.
Qed.

Lemma carve_reports_unless_overlapped_witness :
  carve_files_from_data 3 overlapping_jpeg = Some [mk_carved "jpg" 0 "ffd8ff"] /\
  occurs overlapping_jpeg jpeg_magic 2 /\
  (In (mk_carved "jpg" 2 (hex jpeg_magic)) [mk_carved "jpg" 0 "ffd8ff"] \/
   exists q, In (mk_carved "jpg" q (hex jpeg_magic)) [mk_carved "jpg" 0 "ffd8ff"] /\
             q < 2 < q + len jpeg_magic).
Proof.
  assert (H : carve_files_from_data 3 overlapping_jpeg
              = Some [mk_carved "jpg" 0 "ffd8ff"]) by reflexivity.
  assert (O : occurs overlapping_jpeg jpeg_magic 2).
  { split; [unfold len; simpl; lia | reflexivity]. }
  split; [exact H|]. split; [exact O|].
  apply (carve_reports_unless_overlapped Android.file_signatures 3
           overlapping_jpeg _ H "jpg" jpeg_magic 2); [|exact O].
  simpl. auto.
Defined.

(** C2 fails as stated: in [ff d8 ff d8 ff] the JPEG pattern occurs at
    offsets 0 and 2, less than its length apart; only offset 0 is
    reported. *)
Lemma carve_skips_overlapping_jpeg :
  occurs overlapping_jpeg jpeg_magic 0 /\
  occurs overlapping_jpeg jpeg_magic 2 /\
  In ("jpg"%string, jpeg_magic) (pairs Android.file_signatures) /\
  carve_files_from_data 3 overlapping_jpeg = Some [mk_carved "jpg" 0 "ffd8ff"].
Proof.
  repeat split; try (unfold len; simpl; lia).
  simpl. auto.
Qed.

(** C10, as the code has it. Every record is sound: its tag registers a
    pattern whose hex is the record's signature and which the buffer holds
    at the record's offset. Ordering holds per (tag, pattern) pair: with no
    pair listed twice, the offsets reported for a pair are strictly
    increasing, successive ones at least the pattern's length apart. *)
Theorem carve_sound_and_spaced_per_pair
    (sigs : Android.registry) (fuel : nat) (data : bytes) (out : list carved_file) :
  carve_files_from_data_with sigs fuel data = Some out ->
  (forall e, In e out ->
     exists sig,
       In (cf_type e, sig) (pairs sigs) /\ cf_signature e = hex sig /\
       0 <= cf_offset e /\ cf_offset e + len sig <= len data /\
       slice data (cf_offset e) (cf_offset e + len sig) = sig) /\
  (NoDup (pairs sigs) ->
   forall file_type sig, In (file_type, sig) (pairs sigs) ->
     0 < len sig /\ spaced (len sig) (offsets_of file_type sig out)).
Proof.
  intros H. apply carve_structure in H. split.
  - intros e He.
    destruct (carved_by_in _ _ _ H e He) as (sig & o & Hin & -> & Occ).
    exists sig. simpl. split; [exact Hin|]. split; [reflexivity|].
    split; [apply Occ|]. split; [now apply occurs_fits | now apply occurs_slice].
  - intros ND file_type sig Hin.
    pose proof (carved_by_offsets _ _ _ H ND _ _ Hin) as G. split.
    + apply (greedy_pattern_nonempty _ _ _ _ G). unfold len. lia.
    + apply (greedy_spaced _ _ _ _ G). lia.
Qed.

Lemma android_pairs_nodup : NoDup (pairs Android.file_signatures).
Proof.
  simpl.
  repeat (constructor;
          [ simpl; intros H;
            repeat (destruct H as [H | H]; [discriminate H|]); exact H |]).
  constructor.
Qed.

Lemma carve_sound_and_spaced_per_pair_witness :
  carve_files_from_data 3 two_jpeg_buffer
    = Some [mk_carved "jpg" 0 "ffd8ff"; mk_carved "jpg" 10 "ffd8ff"] /\
  NoDup (pairs Android.file_signatures) /\
  (forall e, In e [mk_carved "jpg" 0 "ffd8ff"; mk_carved "jpg" 10 "ffd8ff"] ->
     exists sig,
       In (cf_type e, sig) (pairs Android.file_signatures) /\
       cf_signature e = hex sig /\
       0 <= cf_offset e /\ cf_offset e + len sig <= len two_jpeg_buffer /\
       slice two_jpeg_buffer (cf_offset e) (cf_offset e + len sig) = sig) /\
  offsets_of "jpg" jpeg_magic
    [mk_carved "jpg" 0 "ffd8ff"; mk_carved "jpg" 10 "ffd8ff"] = [0; 10] /\
  0 < len jpeg_magic /\
  spaced (len jpeg_magic)
    (offsets_of "jpg" jpeg_magic
       [mk_carved "jpg" 0 "ffd8ff"; mk_carved "jpg" 10 "ffd8ff"]).
Proof.
  assert (H : carve_files_from_data 3 two_jpeg_buffer
              = Some [mk_carved "jpg" 0 "ffd8ff"; mk_carved "jpg" 10 "ffd8ff"])
    by reflexivity.
  split; [exact H|]. split; [exact android_pairs_nodup|].
  split; [exact (proj1 (carve_sound_and_spaced_per_pair Android.file_signatures 3
                          two_jpeg_buffer _ H))|].
  split; [reflexivity|].
  apply (proj2 (carve_sound_and_spaced_per_pair Android.file_signatures 3
                  two_jpeg_buffer _ H) android_pairs_nodup "jpg"%string jpeg_magic).
  simpl. auto.
Defined.

(** C10 fails as stated: [zip] and [docx] register the same pattern, so in a
    buffer holding it once the offsets reported for that pattern are 0 and
    0 again, which is not strictly increasing. *)
Lemma shared_pattern_offsets_repeat :
  carve_files_from_data 3 pk_magic
    = Some [mk_carved "zip" 0 "504b0304"; mk_carved "docx" 0 "504b0304"] /\
  offsets_of_pattern pk_magic
    [mk_carved "zip" 0 "504b0304"; mk_carved "docx" 0 "504b0304"] = [0; 0].
Proof.
  split; reflexivity.
Qed.

Lemma recorded_length_hex (file_type : string) (o : Z) (sig : bytes) :
  recorded_length (mk_carved file_type o (hex sig)) = len sig.
Proof.
  unfold recorded_length. simpl. rewrite hex_length.
  rewrite Z.mul_comm. apply Z.div_mul. lia.
Qed.

(** C1, as the code has it. In buffer mode nothing is extracted: a record
    holds the tag, the offset and the hex of the matched pattern, so the
    buffer bytes it stands for are the pattern itself, found at its offset;
    their number is the pattern's length, whatever the size table, the next
    candidate or any cap. *)
Theorem carve_records_pattern_only
    (sigs : Android.registry) (fuel : nat) (data : bytes) (out : list carved_file) :
  carve_files_from_data_with sigs fuel data = Some out ->
  forall e, In e out ->
    exists sig,
      In (cf_type e, sig) (pairs sigs) /\
      recorded_length e = len sig /\
      hex (slice data (cf_offset e) (cf_offset e + recorded_length e))
        = cf_signature e.
Proof.
  intros H e He. apply carve_structure in H.
  destruct (carved_by_in _ _ _ H e He) as (sig & o & Hin & -> & Occ).
  exists sig. split; [exact Hin|].
  rewrite recorded_length_hex. split; [reflexivity|].
  simpl. now rewrite occurs_slice.
Qed.

Lemma carve_records_pattern_only_witness :
  carve_files_from_data 3 jpeg_png_buffer = Some [jpeg_at_100; png_at_5000] /\
  exists sig,
    In (cf_type jpeg_at_100, sig) (pairs Android.file_signatures) /\
    recorded_length jpeg_at_100 = len sig /\
    hex (slice jpeg_png_buffer (cf_offset jpeg_at_100)
           (cf_offset jpeg_at_100 + recorded_length jpeg_at_100))
      = cf_signature jpeg_at_100.
Proof.
  assert (H : carve_files_from_data 3 jpeg_png_buffer
              = Some [jpeg_at_100; png_at_5000]) by (vm_compute; reflexivity).
  split; [exact H|].
  apply (carve_records_pattern_only Android.file_signatures 3 jpeg_png_buffer _ H).
  now left.
Defined.

(** C1 fails as stated: for a JPEG signature at offset 100 and a PNG
    signature at offset 5000 the scan returns the two records and no bytes.
    The JPEG record stands for its 3 pattern bytes, where the policy asks
    for 4900 under any cap of at least 4900; and no cap at all makes the
    policy's length agree with both records. *)
Lemma carve_jpeg_png_no_extraction :
  carve_files_from_data 3 jpeg_png_buffer = Some [jpeg_at_100; png_at_5000] /\
  recorded_length jpeg_at_100 = 3 /\
  (forall cap, 4900 <= cap ->
     Policy.extraction_length cap [jpeg_at_100; png_at_5000] jpeg_at_100 = 4900) /\
  (forall cap,
     ~ forall e, In e [jpeg_at_100; png_at_5000] ->
         recorded_length e
         = Policy.extraction_length cap [jpeg_at_100; png_at_5000] e).
Proof.
  assert (J : forall cap,
             Policy.extraction_length cap [jpeg_at_100; png_at_5000] jpeg_at_100
             = Z.min 10485760 (Z.min 4900 cap)) by reflexivity.
  assert (P : forall cap,
             Policy.extraction_length cap [jpeg_at_100; png_at_5000] png_at_5000
             = Z.min 5242880 cap) by reflexivity.
  split; [vm_compute; reflexivity|]. split; [reflexivity|]. split.
  - intros cap Hcap. rewrite J. lia.
  - intros cap All.
    pose proof (All jpeg_at_100 (or_introl eq_refl)) as A.
    pose proof (All png_at_5000 (or_intror (or_introl eq_refl))) as B.
    rewrite J in A. rewrite P in B.
    change (recorded_length jpeg_at_100) with 3 in A.
    change (recorded_length png_at_5000) with 4 in B.
    lia.
Qed.

(** ** The matcher *)

Lemma first_match_app (before after : Universal.registry) (data : bytes) :
  (forall file_type signatures,
     In (file_type, signatures) before ->
     existsb (startswith data) signatures = false) ->
  first_match (before ++ after) data = first_match after data.
Proof.
  induction before as [|[t ss] before IH]; intros Hno; simpl; [reflexivity|].
  rewrite (Hno t ss) by now left.
  apply IH. intros t' ss' Hin. apply (Hno t' ss'). now right.
Qed.

Lemma android_detect_is_first_match (sigs : Universal.registry) (data : bytes) :
  Android.detect_file_type_with sigs data = first_match sigs data.
Proof.
  induction sigs as [|[t ss] sigs IH]; simpl; [reflexivity|]. now rewrite IH.
Qed.

(** C4, as the code has it. Among the tags with a pattern that matches the
    window, the matcher selects the one registered first, whatever the
    lengths of the patterns; so of two matching patterns of equal length the
    tag registered first is selected. (The universal tool's matcher also
    wants a window of at least 16 bytes.) *)
Theorem detect_first_registered_wins
    (before after : Universal.registry) (file_type : string)
    (signatures : list bytes) (data : bytes) :
  (forall file_type' signatures',
     In (file_type', signatures') before ->
     existsb (startswith data) signatures' = false) ->
  existsb (startswith data) signatures = true ->
  Android.detect_file_type_with (before ++ (file_type, signatures) :: after) data
    = file_type /\
  (16 <= len data ->
   Universal.detect_file_type_with (before ++ (file_type, signatures) :: after) data
     = file_type).
Proof.
  intros Hno Hyes.
  assert (E : first_match (before ++ (file_type, signatures) :: after) data
              = file_type).
  { rewrite first_match_app by exact Hno. simpl. now rewrite Hyes. }
  split.
  - now rewrite android_detect_is_first_match.
  - intros Hlen. unfold Universal.detect_file_type_with.
    destruct (len data <? 16) eqn:L; [apply Z.ltb_lt in L; lia | exact E].
Qed.

Lemma detect_first_registered_wins_witness :
  existsb (startswith abc_window) [[x41; x42]] = true /\
  Android.detect_file_type_with ab_abc abc_window = "ab"%string /\
  (16 <= len abc_window ->
   Universal.detect_file_type_with ab_abc abc_window = "ab"%string).
Proof.
  split; [reflexivity|].
  apply (detect_first_registered_wins [] [("abc"%string, [[x41; x42; x43]])]
           "ab"%string [[x41; x42]] abc_window).
  - intros t ss [].
  - reflexivity.
Defined.

(** C4 fails as stated: with [AB] registered before [ABC] and both
    matching, the matcher of either tool selects the [AB] tag, where
    longest-first selects [ABC]. *)
Lemma detect_prefers_first_over_longest :
  startswith abc_window [x41; x42] = true /\
  startswith abc_window [x41; x42; x43] = true /\
  Universal.detect_file_type_with ab_abc abc_window = "ab"%string /\
  Android.detect_file_type_with ab_abc abc_window = "ab"%string /\
  Policy.select ab_abc abc_window = "abc"%string.
Proof.
  repeat split.
Qed.

Lemma universal_longest_pattern : longest_pattern Universal.file_signatures = 15.
Proof. reflexivity. Qed.

(** C5, as the code has it. The matcher never raises. On every window
    shorter than 16 bytes, and so on every window shorter than the longest
    registered pattern (15 bytes), it answers [unknown] without trying any
    pattern, also when the window begins with a pattern that fits in it. *)
Theorem detect_short_window_unknown (data : bytes) :
  len data < 16 \/ len data < longest_pattern Universal.file_signatures ->
  Universal.detect_file_type data = "unknown"%string.
Proof.
  rewrite universal_longest_pattern. intros H.
  unfold Universal.detect_file_type, Universal.detect_file_type_with.
  destruct (len data <? 16) eqn:L; [reflexivity | apply Z.ltb_ge in L; lia].
Qed.

Lemma detect_short_window_unknown_witness :
  (len sqlite_window < 16 \/
   len sqlite_window < longest_pattern Universal.file_signatures) /\
  len sqlite_window = 15 /\
  Universal.detect_file_type sqlite_window = "unknown"%string.
Proof.
  assert (H : len sqlite_window < 16 \/
              len sqlite_window < longest_pattern Universal.file_signatures)
    by (left; reflexivity).
  split; [exact H|]. split; [reflexivity|].
  exact (detect_short_window_unknown sqlite_window H).
Defined.

(** C5 fails as stated: a 10-byte window that begins with the 2-byte [bmp]
    pattern is answered [unknown], not [bmp]; so is the 15-byte window that
    is the [sqlite] pattern. *)
Lemma detect_short_window_skips_bmp :
  len bmp_window = 10 /\
  In ("bmp"%string, [x42; x4d]) (pairs Universal.file_signatures) /\
  startswith bmp_window [x42; x4d] = true /\
  Universal.detect_file_type bmp_window = "unknown"%string /\
  len sqlite_window = 15 /\
  In ("sqlite"%string, sqlite_window) (pairs Universal.file_signatures) /\
  startswith sqlite_window sqlite_window = true /\
  Universal.detect_file_type sqlite_window = "unknown"%string.
Proof.
  repeat split; simpl; repeat (first [left; reflexivity | right]).
Qed.
(** ** The shipped tables and the longest-first policy

    In both shipped tables no pattern is a proper prefix of another one, so
    patterns that match the same window have the same length and the first
    registered among them is also what longest-first selects: on these
    tables the matcher and the policy agree. *)

Lemma common_prefix (w p q : bytes) :
  startswith w p = true -> startswith w q = true ->
  len p <= len q -> startswith q p = true.
Proof.
  unfold len. revert w q; induction p as [|a p IH]; intros w q Hp Hq Hl; [reflexivity|].
  destruct q as [|b q]; [simpl in Hl; lia|].
  destruct w as [|c w]; [discriminate|].
  simpl in Hp, Hq. simpl length in Hl.
  apply andb_true_iff in Hp as [E1 Hp]. apply andb_true_iff in Hq as [E2 Hq].
  apply Byte.byte_dec_bl in E1, E2. subst.
  simpl. rewrite (Byte.byte_dec_lb (eq_refl b)). simpl.
  apply (IH w q Hp Hq). lia.
Qed.

Lemma first_match_find (sigs : Universal.registry) (w : bytes) :
  first_match sigs w
  = match List.find (fun p => startswith w (snd p)) (pairs sigs) with
    | Some (file_type, _) => file_type
    | None => "unknown"%string
    end.
Proof.
  induction sigs as [|[t ss] sigs IH]; simpl; [reflexivity|].
  induction ss as [|sig ss IHs]; simpl; [exact IH|].
  destruct (startswith w sig); [reflexivity | exact IHs].
Qed.

Lemma longest_first_keeps (all : list (string * bytes)) (w : bytes) :
  no_proper_prefix all = true ->
  forall l t b,
    incl l all -> In (t, b) all -> startswith w b = true ->
    Policy.longest_first l w (Some (t, b)) = Some (t, b).
Proof.
  intros NP. induction l as [|[t' sig] l IH]; intros t b Hincl Hin Hb; simpl;
    [reflexivity|].
  assert (Hl : incl l all) by (intros x Hx; apply Hincl; now right).
  destruct (startswith w sig) eqn:Hs; [|now apply IH].
  destruct (len b <? len sig) eqn:Lt; [|now apply IH].
  exfalso. apply Z.ltb_lt in Lt.
  unfold no_proper_prefix in NP. rewrite forallb_forall in NP.
  specialize (NP (t, b) Hin). rewrite forallb_forall in NP.
  specialize (NP (t', sig) (Hincl _ (or_introl eq_refl))). simpl in NP.
  rewrite (common_prefix w b sig Hb Hs) in NP by lia. simpl in NP.
  apply Z.eqb_eq in NP. lia.
Qed.

Lemma longest_first_find (all : list (string * bytes)) (w : bytes) :
  no_proper_prefix all = true ->
  forall l, incl l all ->
    Policy.longest_first l w None = List.find (fun p => startswith w (snd p)) l.
Proof.
  intros NP. induction l as [|[t sig] l IH]; intros Hincl; simpl; [reflexivity|].
  assert (Hl : incl l all) by (intros x Hx; apply Hincl; now right).
  destruct (startswith w sig) eqn:Hs; [|now apply IH].
  apply (longest_first_keeps all w NP); auto. apply Hincl. now left.
Qed.

Lemma select_is_first_match (sigs : Universal.registry) (w : bytes) :
  no_proper_prefix (pairs sigs) = true ->
  Policy.select sigs w = first_match sigs w.
Proof.
  intros NP. unfold Policy.select.
  rewrite (longest_first_find (pairs sigs) w NP) by apply incl_refl.
  now rewrite first_match_find.
Qed.

Lemma shipped_tables_agree_with_policy (w : bytes) :
  Android.detect_file_type w = Policy.select Android.file_signatures w /\
  (16 <= len w ->
   Universal.detect_file_type w = Policy.select Universal.file_signatures w).
Proof.
  split.
  - unfold Android.detect_file_type.
    rewrite android_detect_is_first_match. symmetry.
    apply select_is_first_match. vm_compute. reflexivity.
  - intros H. unfold Universal.detect_file_type, Universal.detect_file_type_with.
    destruct (len w <? 16) eqn:L; [apply Z.ltb_lt in L; lia|].
    symmetry. apply select_is_first_match. vm_compute. reflexivity.
Qed.


(** ** The tree scan *)

Lemma lookup_app (fs d : node) (p q : path) :
  lookup fs p = Found d -> lookup fs (p ++ q) = lookup d q.
Proof.
  revert fs; induction p as [|c p IH]; intros fs H; simpl in *.
  - now injection H as ->.
  - destruct fs as [|name l w x children]; [discriminate|].
    destruct x; [|discriminate].
    destruct (List.find _ children); [now apply IH | discriminate].
Qed.

Lemma node_induction (P : node -> Prop) :
  (forall name readable writable content mtime,
     P (File name readable writable content mtime)) ->
  (forall name listable writable searchable children,
     Forall P children -> P (Dir name listable writable searchable children)) ->
  forall n, P n.
Proof.
  intros HF HD. fix IH 1.
  intros [name readable writable content mtime | name l w x children].
  - apply HF.
  - apply HD. induction children as [|c children IHc]; constructor.
    + apply IH.
    + exact IHc.
Qed.


Lemma rglob_visible (d : node) :
  forall dir p a n, In (p, a, n) (rglob dir d) -> visible dir d p a n.
Proof.
  unfold rglob.
  induction d as [name readable writable content mtime | name l w x children IH]
    using node_induction; intros dir p a n H; simpl in H; [contradiction|].
  destruct l; [|contradiction]. simpl in H.
  apply in_app_or in H as [H | H].
  - apply in_map_iff in H as (c & E & Hc). injection E as <- <- <-.
    now constructor.
  - destruct x; [|contradiction].
    apply in_flat_map in H as (listing & L1 & L2).
    apply in_flat_map in L1 as (c & Hc & L1).
    rewrite Forall_forall in IH.
    apply visible_below with (c := c); [exact Hc|].
    apply (IH c Hc). apply in_flat_map. eauto.
Qed.

Lemma visible_path (dir : path) (d : node) (p : path) (a : bool) (n : node) :
  visible dir d p a n ->
  exists rel, rel <> [] /\ p = dir ++ rel /\ last p EmptyString = node_name n.
Proof.
  induction 1 as [dir name w x children c Hc | dir name w children c p a n Hc V IH].
  - exists [node_name c]. split; [discriminate|]. split; [reflexivity|].
    apply last_last.
  - destruct IH as (rel & _ & -> & L). exists (node_name c :: rel).
    split; [discriminate|]. split; [now rewrite <- app_assoc | exact L].
Qed.

Section ScanLoop.

Variable pf : platform.
Variable file_types : option (list string).

Lemma scan_item_shape (found_files : list found_file) (item : path * bool * node) :
  scan_item pf file_types found_files item
  = match stops pf file_types item with
    | Some e => Stop found_files e
    | None => Next (found_files ++ entries_of pf file_types item)
    end.
Proof.
  unfold stops, entries_of, scan_item. destruct item as [[p a] n].
  destruct a; [|reflexivity].
  destruct n as [name [|] wr content mtime | name l w x ch];
    try (now rewrite app_nil_r).
  destruct (wanted _ _); [|now rewrite app_nil_r].
  destruct (fromtimestamp pf mtime) as [u|e]; [reflexivity|].
  destruct (is_os_error e); [now rewrite app_nil_r | reflexivity].
Qed.

Lemma entries_of_inv (p : path) (a : bool) (n : node) (e : found_file) :
  In e (entries_of pf file_types (p, a, n)) ->
  a = true /\
  exists name wr content mtime,
    n = File name true wr content mtime /\
    wanted file_types (Universal.detect_file_type (firstn 32 content)) = true /\
    fromtimestamp pf mtime = Ok tt /\
    e = mk_found p name (len content)
                 (Universal.detect_file_type (firstn 32 content)) mtime
                 "existing" true.
Proof.
  unfold entries_of, scan_item. destruct a; [|contradiction].
  destruct n as [name [|] wr content mtime | name l w x ch]; try contradiction.
  destruct (wanted _ _) eqn:W; [|contradiction].
  destruct (fromtimestamp pf mtime) as [[]|err] eqn:T;
    [|destruct (is_os_error err); contradiction].
  intros [<- | []]. split; [reflexivity|]. eauto 10.
Qed.

Lemma scan_loop_entries (items : list (path * bool * node)) :
  forall found_files e,
    In e (fst (scan_loop pf file_types items found_files)) ->
    In e found_files \/
    exists item, In item items /\ In e (entries_of pf file_types item).
Proof.
  induction items as [|item items IH]; intros found_files e H; simpl in H;
    [now left|].
  rewrite scan_item_shape in H.
  destruct (stops pf file_types item); [now left|].
  apply IH in H as [H | (it & Hit & He)].
  - apply in_app_or in H as [H | H]; [now left|]. right. exists item.
    split; [now left | exact H].
  - right. exists it. split; [now right | exact He].
Qed.

Lemma scan_loop_runs (items : list (path * bool * node)) :
  forall found_files,
    Forall (fun item => stops pf file_types item = None) items ->
    scan_loop pf file_types items found_files
    = (found_files ++ flat_map (entries_of pf file_types) items, None).
Proof.
  induction items as [|item items IH]; intros found_files F; simpl.
  - now rewrite app_nil_r.
  - inversion F as [|? ? S F']; subst.
    rewrite scan_item_shape, S, (IH _ F'), <- app_assoc. reflexivity.
Qed.

Lemma scan_loop_ran (items : list (path * bool * node)) :
  forall found_files,
    snd (scan_loop pf file_types items found_files) = None ->
    Forall (fun item => stops pf file_types item = None) items.
Proof.
  induction items as [|item items IH]; intros found_files H; [constructor|].
  simpl in H. rewrite scan_item_shape in H.
  destruct (stops pf file_types item) eqn:S; [discriminate|].
  constructor; [exact S | now apply IH in H].
Qed.

End ScanLoop.


(** ** The file system: what writing changes and what it leaves *)

Lemma find_named_name (c : string) (children : list node) (k : node) :
  List.find (named c) children = Some k -> node_name k = c.
Proof.
  intros H. apply find_some in H as [_ H]. now apply String.eqb_eq in H.
Qed.

Lemma find_replace_same (c : string) (new k : node) (children : list node) :
  node_name new = c ->
  List.find (named c) children = Some k ->
  List.find (named c) (replace_child c new children) = Some new.
Proof.
  intros Hn. induction children as [|x children IH]; simpl; [discriminate|].
  destruct (named c x) eqn:E; simpl.
  - intros _. unfold named. now rewrite Hn, String.eqb_refl.
  - rewrite E. exact IH.
Qed.

Lemma find_replace_other (c c' : string) (new : node) (children : list node) :
  c' <> c -> node_name new = c ->
  List.find (named c') (replace_child c new children)
  = List.find (named c') children.
Proof.
  intros Ne Hn. induction children as [|x children IH]; simpl; [reflexivity|].
  destruct (named c x) eqn:E; simpl.
  - unfold named in *. apply String.eqb_eq in E. rewrite Hn, E.
    destruct (String.eqb c c') eqn:E'; [|reflexivity].
    apply String.eqb_eq in E'. congruence.
  - destruct (named c' x); [reflexivity | exact IH].
Qed.

Lemma find_app_same (c : string) (new : node) (children : list node) :
  node_name new = c ->
  List.find (named c) children = None ->
  List.find (named c) (children ++ [new]) = Some new.
Proof.
  intros Hn. induction children as [|x children IH]; simpl.
  - intros _. unfold named. now rewrite Hn, String.eqb_refl.
  - destruct (named c x); [discriminate | exact IH].
Qed.

Lemma find_app_other (c c' : string) (new : node) (children : list node) :
  c' <> c -> node_name new = c ->
  List.find (named c') (children ++ [new]) = List.find (named c') children.
Proof.
  intros Ne Hn. induction children as [|x children IH]; simpl.
  - unfold named. rewrite Hn.
    destruct (String.eqb c c') eqn:E; [|reflexivity].
    apply String.eqb_eq in E. congruence.
  - destruct (named c' x); [reflexivity | exact IH].
Qed.

Lemma mkdir_p_name (n n' : node) (p : path) :
  mkdir_p n p = Ok n' -> node_name n' = node_name n.
Proof.
  destruct p as [|c p]; destruct n as [nm r w ct mt | nm l w x ch]; simpl;
    try discriminate.
  - now intros [= <-].
  - destruct x; [|discriminate].
    destruct (List.find (named c) ch) as [k|].
    + destruct (mkdir_p k p); [|discriminate]. now intros [= <-].
    + destruct w; [|discriminate].
      destruct (mkdir_p _ p); [|discriminate]. now intros [= <-].
Qed.

(** Making directories neither adds, removes nor changes a file. *)
Lemma mkdir_p_keeps_files (p : path) :
  forall n n' q nm r w ct mt,
    mkdir_p n p = Ok n' ->
    (lookup n' q = Found (File nm r w ct mt) <->
     lookup n q = Found (File nm r w ct mt)).
Proof.
  induction p as [|c p IH]; intros n n' q nm r w ct mt H.
  - destruct n; simpl in H; [discriminate|]. injection H as <-. reflexivity.
  - destruct n as [|name l wd x children]; simpl in H; [discriminate|].
    destruct x; [|discriminate].
    destruct q as [|c' q]; simpl.
    { destruct (List.find (named c) children) as [k|].
      - destruct (mkdir_p k p); [|discriminate]. injection H as <-.
        split; discriminate.
      - destruct wd; [|discriminate].
        destruct (mkdir_p _ p); [|discriminate]. injection H as <-.
        split; discriminate. }
    destruct (List.find (named c) children) as [k|] eqn:F.
    + destruct (mkdir_p k p) as [k'|] eqn:M; [|discriminate]. injection H as <-.
      simpl. pose proof (mkdir_p_name _ _ _ M) as Nk.
      rewrite (find_named_name _ _ _ F) in Nk.
      destruct (string_dec c' c) as [-> | Ne].
      * rewrite (find_replace_same c k' k children Nk F), F. now apply IH.
      * now rewrite (find_replace_other c c' k' children Ne Nk).
    + destruct wd; [|discriminate].
      destruct (mkdir_p (Dir c true true true []) p) as [k'|] eqn:M; [|discriminate].
      injection H as <-. simpl. pose proof (mkdir_p_name _ _ _ M) as Nk.
      simpl in Nk.
      destruct (string_dec c' c) as [-> | Ne].
      * rewrite (find_app_same c k' children Nk F), F.
        rewrite (IH _ _ q nm r w ct mt M).
        destruct q; simpl; split; discriminate.
      * now rewrite (find_app_other c c' k' children Ne Nk).
Qed.






Lemma put_copy_makes_files (r w : bool) (ct : bytes) (mt : Z) :
  leaf_makes_files (put_copy r w ct mt).
Proof.
  split.
  - intros c [[nm r' w' ct' mt' | nm l wd x ch]|] k; simpl;
      [destruct w' | |]; try discriminate; intros [= <-]; eauto.
  - intros c nm l wd x ch k. discriminate.
Qed.

Lemma put_append_makes_files (line : bytes) (time : Z) :
  leaf_makes_files (put_append line time).
Proof.
  split.
  - intros c [[nm r' w' ct' mt' | nm l wd x ch]|] k; simpl;
      [destruct w' | |]; try discriminate; intros [= <-]; eauto.
  - intros c nm l wd x ch k. discriminate.
Qed.

Section Write.

Variable leaf : string -> option node -> result node.
Hypothesis leaf_ok : leaf_makes_files leaf.

Lemma leaf_name (c : string) (old : option node) (k : node) :
  leaf c old = Ok k -> node_name k = c.
Proof.
  intros H. destruct (proj1 leaf_ok _ _ _ H) as (r & w & ct & mt & ->).
  reflexivity.
Qed.

Lemma write_name (n n' : node) (p : path) :
  write leaf n p = Ok n' -> node_name n' = node_name n.
Proof.
  destruct p as [|c p]; destruct n as [nm r w ct mt | nm l w x ch]; simpl;
    try discriminate.
  destruct x; [|discriminate].
  destruct (List.find (named c) ch) as [k|]; destruct p as [|c' p].
  - destruct (leaf c (Some k)); [|discriminate]. now intros [= <-].
  - destruct (write leaf k (c' :: p)); [|discriminate]. now intros [= <-].
  - destruct w; [|discriminate].
    destruct (leaf c None); [|discriminate]. now intros [= <-].
  - discriminate.
Qed.

(** After a write the path holds what the leaf made of what was there. *)
Lemma write_lookup (p : path) :
  forall n n',
    write leaf n p = Ok n' ->
    exists k',
      lookup n' p = Found k' /\
      leaf (last p EmptyString)
           (match lookup n p with Found k => Some k | _ => None end) = Ok k'.
Proof.
  induction p as [|c p IH]; intros n n' H; [discriminate|].
  destruct n as [|name l wd x children]; simpl in H; [discriminate|].
  destruct x; [|discriminate]. simpl.
  destruct (List.find (named c) children) as [k|] eqn:F; destruct p as [|c' p].
  - destruct (leaf c (Some k)) as [k'|] eqn:L; [|discriminate]. injection H as <-.
    simpl. rewrite (find_replace_same c k' k children (leaf_name _ _ _ L) F).
    eauto.
  - destruct (write leaf k (c' :: p)) as [k'|] eqn:W; [|discriminate].
    injection H as <-. simpl.
    pose proof (write_name _ _ _ W) as Nk.
    rewrite (find_named_name _ _ _ F) in Nk.
    rewrite (find_replace_same c k' k children Nk F).
    destruct (IH _ _ W) as (k2 & L2 & E2). exists k2. split; [exact L2|].
    exact E2.
  - destruct wd; [|discriminate].
    destruct (leaf c None) as [k'|] eqn:L; [|discriminate]. injection H as <-.
    simpl. rewrite (find_app_same c k' children (leaf_name _ _ _ L) F). eauto.
  - discriminate.
Qed.

(** A write leaves every file at another path as it was, and puts no file
    anywhere else. *)
Lemma write_keeps_files (p : path) :
  forall n n' q nm r w ct mt,
    write leaf n p = Ok n' -> q <> p ->
    (lookup n' q = Found (File nm r w ct mt) <->
     lookup n q = Found (File nm r w ct mt)).
Proof.
  induction p as [|c p IH]; intros n n' q nm r w ct mt H Ne; [discriminate|].
  destruct n as [|name l wd x children]; simpl in H; [discriminate|].
  destruct x; [|discriminate].
  destruct q as [|c' q].
  { simpl. destruct (List.find (named c) children) as [k|]; destruct p as [|c2 p].
    - destruct (leaf c (Some k)); [|discriminate]. injection H as <-.
      split; discriminate.
    - destruct (write leaf k (c2 :: p)); [|discriminate]. injection H as <-.
      split; discriminate.
    - destruct wd; [|discriminate]. destruct (leaf c None); [|discriminate].
      injection H as <-. split; discriminate.
    - discriminate. }
  destruct (List.find (named c) children) as [k|] eqn:F; destruct p as [|c2 p].
  - destruct (leaf c (Some k)) as [k'|] eqn:L; [|discriminate]. injection H as <-.
    simpl. destruct (string_dec c' c) as [-> | Nc].
    + rewrite (find_replace_same c k' k children (leaf_name _ _ _ L) F), F.
      destruct q as [|c3 q]; [congruence|].
      destruct (proj1 leaf_ok _ _ _ L) as (r' & w' & ct' & mt' & ->).
      destruct k as [knm kr kw kct kmt | knm kl kw kx kch].
      * simpl. split; discriminate.
      * exfalso. exact (proj2 leaf_ok _ _ _ _ _ _ _ L).
    + now rewrite (find_replace_other c c' k' children Nc (leaf_name _ _ _ L)).
  - destruct (write leaf k (c2 :: p)) as [k'|] eqn:W; [|discriminate].
    injection H as <-. simpl.
    pose proof (write_name _ _ _ W) as Nk.
    rewrite (find_named_name _ _ _ F) in Nk.
    destruct (string_dec c' c) as [-> | Nc].
    + rewrite (find_replace_same c k' k children Nk F), F.
      apply (IH _ _ q nm r w ct mt W). congruence.
    + now rewrite (find_replace_other c c' k' children Nc Nk).
  - destruct wd; [|discriminate].
    destruct (leaf c None) as [k'|] eqn:L; [|discriminate]. injection H as <-.
    simpl. destruct (string_dec c' c) as [-> | Nc].
    + rewrite (find_app_same c k' children (leaf_name _ _ _ L) F), F.
      destruct q as [|c3 q]; [congruence|].
      destruct (proj1 leaf_ok _ _ _ L) as (r' & w' & ct' & mt' & ->).
      simpl. split; discriminate.
    + now rewrite (find_app_other c c' k' children Nc (leaf_name _ _ _ L)).
  - discriminate.
Qed.

(** Away from the path written and from what lies above it, nothing at all
    changes. *)
Lemma write_keeps_elsewhere (p : path) :
  forall n n' q,
    write leaf n p = Ok n' -> is_prefix q p = false ->
    lookup n' q = lookup n q.
Proof.
  induction p as [|c p IH]; intros n n' q H Np; [discriminate|].
  destruct n as [|name l wd x children]; simpl in H; [discriminate|].
  destruct x; [|discriminate].
  destruct q as [|c' q]; [discriminate|]. simpl in Np.
  destruct (String.eqb c' c) eqn:E; simpl in Np.
  - apply String.eqb_eq in E. subst c'.
    destruct (List.find (named c) children) as [k|] eqn:F; destruct p as [|c2 p].
    + destruct (leaf c (Some k)) as [k'|] eqn:L; [|discriminate]. injection H as <-.
      simpl. rewrite (find_replace_same c k' k children (leaf_name _ _ _ L) F), F.
      destruct q as [|c3 q]; [discriminate|].
      destruct (proj1 leaf_ok _ _ _ L) as (r' & w' & ct' & mt' & ->).
      destruct k as [knm kr kw kct kmt | knm kl kw kx kch]; [reflexivity|].
      exfalso. exact (proj2 leaf_ok _ _ _ _ _ _ _ L).
    + destruct (write leaf k (c2 :: p)) as [k'|] eqn:W; [|discriminate].
      injection H as <-. simpl.
      pose proof (write_name _ _ _ W) as Nk.
      rewrite (find_named_name _ _ _ F) in Nk.
      rewrite (find_replace_same c k' k children Nk F), F.
      now apply IH.
    + destruct wd; [|discriminate].
      destruct (leaf c None) as [k'|] eqn:L; [|discriminate]. injection H as <-.
      simpl. rewrite (find_app_same c k' children (leaf_name _ _ _ L) F), F.
      destruct q as [|c3 q]; [discriminate|].
      destruct (proj1 leaf_ok _ _ _ L) as (r' & w' & ct' & mt' & ->).
      reflexivity.
    + discriminate.
  - apply String.eqb_neq in E.
    destruct (List.find (named c) children) as [k|] eqn:F; destruct p as [|c2 p].
    + destruct (leaf c (Some k)) as [k'|] eqn:L; [|discriminate]. injection H as <-.
      simpl. now rewrite (find_replace_other c c' k' children E (leaf_name _ _ _ L)).
    + destruct (write leaf k (c2 :: p)) as [k'|] eqn:W; [|discriminate].
      injection H as <-. simpl.
      pose proof (write_name _ _ _ W) as Nk.
      rewrite (find_named_name _ _ _ F) in Nk.
      now rewrite (find_replace_other c c' k' children E Nk).
    + destruct wd; [|discriminate].
      destruct (leaf c None) as [k'|] eqn:L; [|discriminate]. injection H as <-.
      simpl. now rewrite (find_app_other c c' k' children E (leaf_name _ _ _ L)).
    + discriminate.
Qed.

(** A write goes through directories that are there. *)
Lemma write_through (p : path) :
  forall n n' q,
    write leaf n p = Ok n' -> is_prefix q p = true -> q <> p ->
    exists k, lookup n q = Found k.
Proof.
  induction p as [|c p IH]; intros n n' q H Pq Ne; [discriminate|].
  destruct q as [|c' q]; [simpl; eauto|].
  destruct n as [|name l wd x children]; simpl in H; [discriminate|].
  destruct x; [|discriminate].
  simpl in Pq. apply andb_prop in Pq as [E Pq]. apply String.eqb_eq in E.
  subst c'. simpl.
  destruct (List.find (named c) children) as [k|] eqn:F; destruct p as [|c2 p].
  - destruct q; [congruence | discriminate].
  - destruct (write leaf k (c2 :: p)) as [k'|] eqn:W; [|discriminate].
    apply (IH _ _ q W Pq). congruence.
  - destruct q; [congruence | discriminate].
  - discriminate.
Qed.

(** What was not there before a write and is there after it is the file
    written. *)
Lemma write_makes_only_its_file (p : path) (n n' : node) (q : path) (k' : node) :
  write leaf n p = Ok n' ->
  (forall k, lookup n q <> Found k) ->
  lookup n' q = Found k' ->
  q = p /\ exists c r w ct mt, k' = File c r w ct mt.
Proof.
  intros W No L.
  destruct (is_prefix q p) eqn:Pq.
  - destruct (list_eq_dec string_dec q p) as [-> | Ne].
    + split; [reflexivity|].
      destruct (write_lookup _ _ _ W) as (k2 & L2 & E2).
      rewrite L in L2. injection L2 as <-.
      destruct (proj1 leaf_ok _ _ _ E2) as (r & w & ct & mt & ->). eauto 10.
    + destruct (write_through _ _ _ _ W Pq Ne) as (k & Hk).
      now contradiction (No k).
  - rewrite (write_keeps_elsewhere _ _ _ _ W Pq) in L. now contradiction (No k').
Qed.

(** What is there can be opened for writing when the leaf takes it. *)
Lemma write_existing (p : path) :
  forall n k k',
    p <> [] ->
    lookup n p = Found k ->
    leaf (last p EmptyString) (Some k) = Ok k' ->
    exists n', write leaf n p = Ok n'.
Proof.
  induction p as [|c p IH]; intros n k k' Ne L Lf; [congruence|].
  destruct n as [|name l wd x children]; simpl in L; [discriminate|].
  destruct x; [|discriminate]. simpl.
  destruct (List.find (named c) children) as [k0|] eqn:F; [|discriminate].
  destruct p as [|c2 p].
  - simpl in L. injection L as ->. simpl in Lf. rewrite Lf. eauto.
  - destruct (IH k0 k k') as (k1 & W); [discriminate | exact L | exact Lf |].
    rewrite W. eauto.
Qed.



End Write.

(** Whether a write goes through depends on the leaf only through what
    the leaf accepts. *)
Lemma write_accepts (leaf leaf' : string -> option node -> result node) (p : path) :
  (forall c old k, leaf c old = Ok k -> exists k', leaf' c old = Ok k') ->
  forall n n', write leaf n p = Ok n' -> exists n'', write leaf' n p = Ok n''.
Proof.
  intros A. induction p as [|c p IH]; intros n n' H; [discriminate|].
  destruct n as [|name l wd x children]; simpl in *; [discriminate|].
  destruct x; [|discriminate].
  destruct (List.find (named c) children) as [k|]; destruct p as [|c2 p].
  - destruct (leaf c (Some k)) as [k1|] eqn:L; [|discriminate].
    destruct (A _ _ _ L) as (k2 & ->). eauto.
  - destruct (write leaf k (c2 :: p)) as [k1|] eqn:W; [|discriminate].
    destruct (IH _ _ W) as (k2 & ->). eauto.
  - destruct wd; [|discriminate].
    destruct (leaf c None) as [k1|] eqn:L; [|discriminate].
    destruct (A _ _ _ L) as (k2 & ->). eauto.
  - discriminate.
Qed.

Lemma put_append_accepts (line line' : bytes) (time time' : Z)
    (c : string) (old : option node) (k : node) :
  put_append line time c old = Ok k -> exists k', put_append line' time' c old = Ok k'.
Proof.
  destruct old as [[nm r [|] ct mt | nm l wd x ch]|]; simpl; try discriminate;
    eauto.
Qed.

(** What a write raises is what its leaf raises or an [OSError]. *)
Lemma write_error_is_os (leaf : string -> option node -> result node) (p : path) :
  (forall c old e, leaf c old = Error e -> is_os_error e = true) ->
  forall n e, write leaf n p = Error e -> is_os_error e = true.
Proof.
  intros A. induction p as [|c p IH]; intros n e H; simpl in H.
  - now injection H as <-.
  - destruct n as [|name l wd x children]; [now injection H as <-|].
    destruct x; [|now injection H as <-].
    destruct (List.find (named c) children) as [k|]; destruct p as [|c2 p].
    + destruct (leaf c (Some k)) eqn:L; [discriminate|]. injection H as <-.
      exact (A _ _ _ L).
    + destruct (write leaf k (c2 :: p)) eqn:W; [discriminate|]. injection H as <-.
      exact (IH _ _ W).
    + destruct wd; [|now injection H as <-].
      destruct (leaf c None) eqn:L; [discriminate|]. injection H as <-.
      exact (A _ _ _ L).
    + now injection H as <-.
Qed.

Lemma put_append_error_is_os (line : bytes) (time : Z) (c : string)
    (old : option node) (e : exn) :
  put_append line time c old = Error e -> is_os_error e = true.
Proof.
  destruct old as [[nm r [|] ct mt | nm l wd x ch]|]; simpl; try discriminate;
    now intros [= <-].
Qed.

Lemma is_prefix_app (q r : path) : is_prefix q (q ++ r) = true.
Proof.
  induction q as [|c q IH]; simpl; [reflexivity|].
  now rewrite String.eqb_refl, IH.
Qed.

Lemma is_prefix_inv (q p : path) :
  is_prefix q p = true -> exists r, p = q ++ r.
Proof.
  revert p; induction q as [|c q IH]; intros p H; [exists p; reflexivity|].
  destruct p as [|d p]; [discriminate|]. simpl in H.
  apply andb_prop in H as [E H]. apply String.eqb_eq in E. subst d.
  destruct (IH _ H) as (r & ->). now exists r.
Qed.

(** ** The log *)

Section Log.

Variable pf : platform.
Variable recovery_path : path.

Local Abbreviation log := (Universal.log pf recovery_path).
Local Abbreviation log_file := (Universal.log_file recovery_path).

Lemma log_file_not_root : log_file <> [].
Proof.
  unfold Universal.log_file. destruct recovery_path; discriminate.
Qed.

Lemma log_file_last : last log_file EmptyString = "forensic_log.txt"%string.
Proof. unfold Universal.log_file. apply last_last. Qed.

Lemma log_clock (w w' : world) (event : log_event) (r : result unit) :
  log w event = (w', r) -> w_clock w' = S (w_clock w).
Proof.
  unfold Universal.log. destruct (write _ _ _); intros [= <- _]; reflexivity.
Qed.

(** A log line that cannot be written leaves the file system as it was. *)
Lemma log_error (w w' : world) (event : log_event) (e : exn) :
  log w event = (w', Error e) -> w_fs w' = w_fs w.
Proof.
  unfold Universal.log. destruct (write _ _ _); intros [= <-]; reflexivity.
Qed.

(** What [log] raises is an [OSError]. *)
Lemma log_error_is_os (w w' : world) (event : log_event) (e : exn) :
  log w event = (w', Error e) -> is_os_error e = true.
Proof.
  unfold Universal.log. destruct (write _ _ _) eqn:W; intros [= _ <-].
  exact (write_error_is_os _ _ (put_append_error_is_os _ _) _ _ W).
Qed.

(** After a log line has been written, the log file is a writable file. *)
Lemma log_ok_file (w w' : world) (event : log_event) (u : unit) :
  log w event = (w', Ok u) ->
  exists r ct mt,
    lookup (w_fs w') log_file = Found (File "forensic_log.txt" r true ct mt).
Proof.
  unfold Universal.log.
  destruct (write _ _ _) as [fs|] eqn:W; [|discriminate]. intros [= <- _].
  destruct (write_lookup _ (put_append_makes_files _ _) _ _ _ W) as (k & L & E).
  simpl. rewrite L, log_file_last in *.
  destruct (match lookup (w_fs w) log_file with Found k0 => Some k0 | _ => None end)
    as [[nm r [|] ct mt | nm l wd x ch]|]; simpl in E; try discriminate;
    injection E as <-; eauto.
Qed.

(** Whether a log line can be written does not depend on the line. *)
Lemma log_writable (w : world) (event : log_event) (nm : string) (r : bool)
    (ct : bytes) (mt : Z) :
  lookup (w_fs w) log_file = Found (File nm r true ct mt) ->
  exists w', log w event = (w', Ok tt).
Proof.
  intros L. unfold Universal.log.
  destruct (write_existing
              (put_append (log_entry pf (w_clock w) event) (time_now pf (w_clock w)))
              log_file (w_fs w) _
              (File (last log_file EmptyString) r true
                    (ct ++ log_entry pf (w_clock w) event) (time_now pf (w_clock w)))
              log_file_not_root L eq_refl) as (fs & W).
  rewrite W. eauto.
Qed.

Lemma log_again (w w1 : world) (event event' : log_event) (u : unit) :
  log w event = (w1, Ok u) -> exists w2, log w1 event' = (w2, Ok tt).
Proof.
  intros H. destruct (log_ok_file _ _ _ _ H) as (r & ct & mt & L).
  exact (log_writable w1 event' _ r ct mt L).
Qed.

(** The line written does not decide whether it can be written. *)
Lemma log_any_line (w w1 : world) (event event' : log_event) (u : unit) :
  log w event = (w1, Ok u) -> exists w2, log w event' = (w2, Ok tt).
Proof.
  unfold Universal.log.
  destruct (write (put_append (log_entry pf (w_clock w) event) _) _ _)
    as [fs|] eqn:W; [|discriminate]. intros _.
  destruct (write_accepts _
              (put_append (log_entry pf (w_clock w) event')
                          (time_now pf (w_clock w)))
              log_file (put_append_accepts _ _ _ _) _ _ W) as (fs' & ->).
  eauto.
Qed.

(** A log line changes nothing away from the log file and the directories
    above it. *)
Lemma log_keeps_elsewhere (w w' : world) (event : log_event) (r : result unit)
    (q : path) :
  log w event = (w', r) -> is_prefix q log_file = false ->
  lookup (w_fs w') q = lookup (w_fs w) q.
Proof.
  unfold Universal.log.
  destruct (write _ _ _) as [fs|] eqn:W; intros [= <- _] Nq; [|reflexivity].
  exact (write_keeps_elsewhere _ (put_append_makes_files _ _) _ _ _ _ W Nq).
Qed.

(** A log line changes no file but the log file, and makes none. *)
Lemma log_keeps_files (w w' : world) (event : log_event) (r : result unit)
    (q : path) (nm : string) (rd wr : bool) (ct : bytes) (mt : Z) :
  log w event = (w', r) -> q <> log_file ->
  (lookup (w_fs w') q = Found (File nm rd wr ct mt) <->
   lookup (w_fs w) q = Found (File nm rd wr ct mt)).
Proof.
  unfold Universal.log.
  destruct (write _ _ _) as [fs|] eqn:W; intros [= <- _] Nq; [|reflexivity].
  exact (write_keeps_files _ (put_append_makes_files _ _) _ _ _ _ _ _ _ _ _ W Nq).
Qed.

End Log.

(** ** One call of [recover_file] *)

Lemma put_copy_result (r w : bool) (ct : bytes) (mt : Z) (c : string)
    (old : option node) (k : node) :
  put_copy r w ct mt c old = Ok k -> k = File c r w ct mt.
Proof.
  destruct old as [[nm r' [|] ct' mt' | nm l wd x ch]|]; simpl; try discriminate;
    now intros [= <-].
Qed.

(** A copy that goes through had a readable file to copy, and leaves its
    content, mode and time at the destination. *)
Lemma copy2_inv (fs fs' : node) (src dst : path) :
  copy2 fs src dst = Ok fs' ->
  exists nm wr ct mt,
    lookup fs src = Found (File nm true wr ct mt) /\
    let dst' := if isdir fs dst then dst ++ [last src EmptyString] else dst in
    src <> dst' /\
    write (put_copy true wr ct mt) fs dst' = Ok fs' /\
    lookup fs' dst' = Found (File (last dst' EmptyString) true wr ct mt).
Proof.
  unfold copy2.
  destruct (lookup fs src) as [[nm r wr ct mt | nm l wd x ch]| |];
    try discriminate.
  - destruct (list_eq_dec string_dec src _) as [|Ne]; [discriminate|].
    destruct r; [|discriminate]. intros W.
    exists nm, wr, ct, mt. split; [reflexivity|]. split; [exact Ne|].
    split; [exact W|].
    destruct (write_lookup _ (put_copy_makes_files _ _ _ _) _ _ _ W)
      as (k & L & E).
    now rewrite (put_copy_result _ _ _ _ _ _ _ E) in L.
  - destruct (list_eq_dec string_dec src _); discriminate.
Qed.

Lemma app_one_longer (A : Type) (l : list A) (a b c : A) :
  (l ++ [a]) ++ [b] <> l ++ [c].
Proof.
  intros E. apply (f_equal (@length A)) in E.
  rewrite !length_app in E. simpl in E. lia.
Qed.

Lemma app_one_grows (A : Type) (l : list A) (a : A) : l <> l ++ [a].
Proof.
  intros E. apply (f_equal (@length A)) in E.
  rewrite length_app in E. simpl in E. lia.
Qed.

Section RecoverFile.

Variable pf : platform.
Variable recovery_path : path.

Local Abbreviation log := (Universal.log pf recovery_path).
Local Abbreviation log_file := (Universal.log_file recovery_path).
Local Abbreviation on_exception := (Universal.on_exception pf recovery_path).
Local Abbreviation recover_file := (Universal.recover_file pf recovery_path).
Local Abbreviation main_recover_all := (Universal.main_recover_all pf recovery_path).
Local Abbreviation folder := (recovery_folder pf recovery_path).
Local Abbreviation dest := (destination pf recovery_path).

Lemma destination_not_log (w : world) (item : found_file) :
  dest w item <> log_file.
Proof. apply app_one_longer. Qed.

Lemma on_exception_fails (w w' : world) (e : exn) (r : recover_result) :
  on_exception w e = (w', Returns r) -> r = Failure (Str e).
Proof.
  unfold Universal.on_exception.
  destruct (log w _) as [w1 [u|e']]; now intros [= _ <-].
Qed.

Lemma on_exception_not_success (w w' : world) (e : exn) (r : recover_result) :
  on_exception w e = (w', Returns r) -> success r = true -> False.
Proof.
  intros H Hs. apply on_exception_fails in H. subst r. discriminate.
Qed.

(** Only what [log] raises in the [except] leaves [recover_file]. *)
Lemma on_exception_raises (w w' : world) (e e' : exn) :
  on_exception w e = (w', Raises e') -> is_os_error e' = true.
Proof.
  unfold Universal.on_exception.
  destruct (log w _) as [w1 [u|e1]] eqn:G; intros [= _ <-].
  exact (log_error_is_os _ _ _ _ _ _ G).
Qed.

Lemma recover_file_raises (w w' : world) (item : found_file)
    (output_dir : option path) (e : exn) :
  Universal.recover_file pf recovery_path w item output_dir = (w', Raises e) ->
  is_os_error e = true.
Proof.
  unfold Universal.recover_file.
  destruct (lookup _ _);
    [| discriminate | now apply on_exception_raises].
  destruct (mkdir_p _ _); [| now apply on_exception_raises].
  destruct (copy2 _ _ _); [| now apply on_exception_raises].
  destruct (read_bytes _ _); [| now apply on_exception_raises].
  destruct (log _ _) as [w3 [u|e4]]; [| now apply on_exception_raises].
  destruct (stat_size _ _ _); [discriminate | now apply on_exception_raises].
Qed.

(** What a successful call has done. *)
Lemma recover_file_success (w w' : world) (item : found_file) (r : recover_result) :
  recover_file w item None = (w', Returns r) ->
  success r = true ->
  exists nm wr content mt,
    lookup (w_fs w) (ff_path item) = Found (File nm true wr content mt) /\
    r = Recovered (ff_path item) (dest w item)
                  (sha256_hexdigest pf content) (len content) /\
    lookup (w_fs w') (dest w item)
    = Found (File (last (ff_path item) EmptyString) true wr content mt) /\
    w_clock w' = S (S (w_clock w)).
Proof.
  unfold Universal.recover_file. fold (folder w). fold (dest w item).
  intros H Hs.
  destruct (lookup (w_fs w) (ff_path item)) as [k0| |] eqn:L0;
    [| injection H as _ <-; discriminate
     | now destruct (on_exception_not_success _ _ _ _ H Hs)].
  cbn [w_fs w_clock] in H.
  destruct (mkdir_p (w_fs w) (folder w)) as [fs1|e1] eqn:M;
    [| now destruct (on_exception_not_success _ _ _ _ H Hs)].
  destruct (copy2 fs1 (ff_path item) (dest w item)) as [fs2|e2] eqn:C;
    [| now destruct (on_exception_not_success _ _ _ _ H Hs)].
  destruct (read_bytes fs2 (dest w item)) as [copied|e3] eqn:R;
    [| now destruct (on_exception_not_success _ _ _ _ H Hs)].
  destruct (log _ (Log_recovered _)) as [w3 [u|e4]] eqn:G;
    [| now destruct (on_exception_not_success _ _ _ _ H Hs)].
  destruct (stat_size pf (w_fs w3) (dest w item)) as [size|e5] eqn:Z;
    [| now destruct (on_exception_not_success _ _ _ _ H Hs)].
  injection H as <- <-.
  apply copy2_inv in C as (nm & wr & ct & mt & Ls & Ne & W & Ld).
  cbv zeta in Ne, W, Ld.
  assert (D : isdir fs1 (dest w item) = false).
  { destruct (isdir fs1 (dest w item)) eqn:D; [|reflexivity]. exfalso.
    unfold read_bytes in R.
    destruct (lookup fs2 (dest w item))
      as [[nm' r' w' ct' mt' | nm' l' wd' x' ch']| |] eqn:L2; try discriminate.
    apply (write_keeps_files _ (put_copy_makes_files _ _ _ _) _ _ _
             (dest w item) nm' r' w' ct' mt' W) in L2;
      [| apply app_one_grows].
    unfold isdir in D. now rewrite L2 in D. }
  rewrite D in *.
  assert (L3 : lookup (w_fs w3) (dest w item)
               = Found (File (last (dest w item) EmptyString) true wr ct mt)).
  { apply (log_keeps_files pf recovery_path _ _ _ _ _ _ _ _ _ _ G
             (destination_not_log w item)). exact Ld. }
  unfold read_bytes in R. rewrite Ld in R. injection R as <-.
  unfold stat_size in Z. rewrite L3 in Z. injection Z as <-.
  apply (mkdir_p_keeps_files _ _ _ _ _ _ _ _ _ M) in Ls.
  exists nm, wr, ct, mt. split; [now rewrite <- L0|]. split; [reflexivity|].
  split.
  - rewrite L3. unfold destination at 1. now rewrite last_last.
  - apply log_clock in G. exact G.
Qed.

(** When the folder can be made, the copy written to a place that is not a
    directory and the line logged, the call succeeds. *)
Lemma recover_file_goes_through (w w3 : world) (item : found_file)
    (nm : string) (wr : bool) (content : bytes) (mt : Z) (fs1 fs2 : node) :
  lookup (w_fs w) (ff_path item) = Found (File nm true wr content mt) ->
  mkdir_p (w_fs w) (folder w) = Ok fs1 ->
  isdir fs1 (dest w item) = false ->
  copy2 fs1 (ff_path item) (dest w item) = Ok fs2 ->
  log (mk_world fs2 (S (w_clock w)))
      (Log_recovered (last (ff_path item) EmptyString)) = (w3, Ok tt) ->
  recover_file w item None
  = (w3, Returns (Recovered (ff_path item) (dest w item)
                            (sha256_hexdigest pf content) (len content))).
Proof.
  intros Ls M D C G.
  unfold Universal.recover_file. fold (folder w). fold (dest w item).
  rewrite Ls. cbn [w_fs w_clock]. rewrite M, C.
  apply (mkdir_p_keeps_files _ _ _ _ _ _ _ _ _ M) in Ls.
  apply copy2_inv in C as (nm' & wr' & ct' & mt' & Ls' & Ne & W & Ld).
  cbv zeta in Ne, W, Ld. rewrite D in *.
  rewrite Ls in Ls'. injection Ls' as <- <- <- <-.
  unfold read_bytes. rewrite Ld, G.
  unfold stat_size.
  rewrite (proj2 (log_keeps_files pf recovery_path _ _ _ _ _ _ _ _ _ _ G
                    (destination_not_log w item)) Ld).
  reflexivity.
Qed.

(** ** The recover-all loop *)

Lemma main_recover_all_calls (items : list found_file) :
  forall w recovered_files,
    snd (fst (main_recover_all w items recovered_files))
    = recovered_files ++ successes (calls pf recovery_path w items).
Proof.
  induction items as [|item items IH]; intros w recovered_files; simpl.
  - now rewrite app_nil_r.
  - destruct (recover_file w item None) as [w' [r|e]] eqn:R.
    + rewrite IH. unfold successes at 2. cbn [flat_map snd].
      destruct r as [s d h n | err]; cbn [success].
      * now rewrite <- app_assoc.
      * reflexivity.
    + simpl. now rewrite app_nil_r.
Qed.

Lemma calls_are_calls (items : list found_file) :
  forall w wk item o,
    In (wk, item, o) (calls pf recovery_path w items) ->
    In item items /\ exists w', recover_file wk item None = (w', o).
Proof.
  induction items as [|it items IH]; intros w wk item o H; [contradiction|].
  simpl in H. destruct (recover_file w it None) as [w' [r|e]] eqn:R.
  - destruct H as [[= <- <- <-] | H].
    + split; [now left | eauto].
    + destruct (IH _ _ _ _ H) as [I E]. split; [now right | exact E].
  - destruct H as [[= <- <- <-] | []]. split; [now left | eauto].
Qed.

End RecoverFile.

(** ** [scan_drive_deep] *)

Lemma is_prefix_longer (q r p : path) :
  is_prefix q p = false -> is_prefix (q ++ r) p = false.
Proof.
  revert p; induction q as [|c q IH]; intros p H; [discriminate|].
  destruct p as [|d p]; [reflexivity|]. simpl in *.
  destruct (String.eqb c d); [now apply IH | reflexivity].
Qed.

Section ScanDrive.

Variable pf : platform.
Variable recovery_path : path.

Local Abbreviation log := (Universal.log pf recovery_path).
Local Abbreviation log_file := (Universal.log_file recovery_path).
Local Abbreviation scan_try := (Universal.scan_try pf recovery_path).
Local Abbreviation scan_drive_deep := (Universal.scan_drive_deep pf recovery_path).
Local Abbreviation caught := (scan_caught pf recovery_path).

(** What a log line makes appear is the log file. *)
Lemma log_makes_only_log_file (w w' : world) (event : log_event) (r : result unit)
    (q : path) (k' : node) :
  log w event = (w', r) ->
  (forall k, lookup (w_fs w) q <> Found k) ->
  lookup (w_fs w') q = Found k' ->
  q = log_file /\ exists c rd wr ct mt, k' = File c rd wr ct mt.
Proof.
  unfold Universal.log.
  destruct (write _ _ _) as [fs|] eqn:W; intros [= <- _] No L; simpl in L.
  - exact (write_makes_only_its_file _ (put_append_makes_files _ _)
             _ _ _ _ _ W No L).
  - now contradiction (No k').
Qed.

(** The entries a call returns were found by the loop on some directory
    tree at the drive path. *)
Lemma scan_drive_deep_found (w : world) (drive_path : path)
    (file_types : option (list string)) (e : found_file) :
  In e (returned (scan_drive_deep w drive_path file_types)) ->
  exists drive, In e (fst (scan_loop pf file_types (rglob drive_path drive) [])).
Proof.
  unfold Universal.scan_drive_deep.
  destruct (log w _) as [w1 [u|e1]]; [|contradiction].
  unfold Universal.scan_try.
  destruct (lookup (w_fs w1) drive_path) as [d1| |].
  - destruct (log w1 Log_phase1) as [w2 [u2|e2]].
    + destruct (lookup (w_fs w2) drive_path) as [drive| |].
      * intros H. exists drive.
        destruct (scan_loop pf file_types (rglob drive_path drive) [])
          as [found [err|]]; simpl.
        -- destruct (log w2 _) as [w3 [u3|e3]]; [exact H | contradiction].
        -- destruct (log w2 _) as [w3 [u3|e3]].
           ++ destruct (log w3 _) as [w4 [u4|e4]]; [exact H|].
              destruct (log w4 _) as [w5 [u5|e5]]; [exact H | contradiction].
           ++ destruct (log w3 _) as [w4 [u4|e4]]; [exact H | contradiction].
      * simpl. destruct (log w2 _) as [w3 [u3|e3]].
        -- destruct (log w3 _) as [w4 [u4|e4]]; [contradiction|].
           destruct (log w4 _) as [w5 [u5|e5]]; contradiction.
        -- destruct (log w3 _) as [w4 [u4|e4]]; contradiction.
      * simpl. destruct (log w2 _) as [w3 [u3|e3]].
        -- destruct (log w3 _) as [w4 [u4|e4]]; [contradiction|].
           destruct (log w4 _) as [w5 [u5|e5]]; contradiction.
        -- destruct (log w3 _) as [w4 [u4|e4]]; contradiction.
    + destruct (log w2 _) as [w3 [u3|e3]]; contradiction.
  - destruct (log w1 _) as [w2 [u2|e2]]; [contradiction|].
    destruct (log w2 _) as [w3 [u3|e3]]; contradiction.
  - destruct (log w1 _) as [w3 [u3|e3]]; contradiction.
Qed.

(** A drive path that leads nowhere gives no entries. *)
Lemma scan_drive_deep_nowhere (w : world) (drive_path : path)
    (file_types : option (list string)) :
  (forall drive, lookup (w_fs w) drive_path <> Found drive) ->
  returned (scan_drive_deep w drive_path file_types) = [].
Proof.
  intros No. unfold Universal.scan_drive_deep.
  destruct (log w _) as [w1 [u|e1]] eqn:G1; [|reflexivity].
  unfold Universal.scan_try.
  destruct (lookup (w_fs w1) drive_path) as [d1| |] eqn:L1.
  - destruct (log_makes_only_log_file _ _ _ _ _ _ G1 No L1) as [-> _].
    destruct (log w1 Log_phase1) as [w2 [u2|e2]] eqn:G2.
    + destruct (log_ok_file _ _ _ _ _ _ G2) as (r & ct & mt & ->). simpl.
      destruct (log w2 _) as [w3 [u3|e3]].
      * destruct (log w3 _) as [w4 [u4|e4]]; [reflexivity|].
        now destruct (log w4 _) as [w5 [u5|e5]].
      * now destruct (log w3 _) as [w4 [u4|e4]].
    + now destruct (log w2 _) as [w3 [u3|e3]].
  - destruct (log w1 _) as [w2 [u2|e2]]; [reflexivity|].
    now destruct (log w2 _) as [w3 [u3|e3]].
  - now destruct (log w1 _) as [w3 [u3|e3]].
Qed.

(** When the first line can be logged and the log file does not lie in
    what is scanned, the call returns what the loop finds in the tree as
    it stands, and the tree stands as it was. *)
Lemma scan_drive_deep_runs (w w1 : world) (drive_path : path)
    (file_types : option (list string)) (drive : node) :
  log w (Log_scan_start drive_path) = (w1, Ok tt) ->
  is_prefix drive_path log_file = false ->
  lookup (w_fs w) drive_path = Found drive ->
  exists w',
    scan_drive_deep w drive_path file_types
    = (w', Ok (fst (scan_loop pf file_types (rglob drive_path drive) []))) /\
    caught w drive_path file_types
    = snd (scan_loop pf file_types (rglob drive_path drive) []) /\
    (forall q, is_prefix q log_file = false ->
               lookup (w_fs w') q = lookup (w_fs w) q).
Proof.
  intros G1 Np L.
  unfold scan_caught, Universal.scan_drive_deep. rewrite G1.
  unfold Universal.scan_try.
  pose proof (fun q => log_keeps_elsewhere _ _ _ _ _ _ q G1) as K1.
  rewrite (K1 _ Np), L.
  destruct (log_again _ _ _ _ _ Log_phase1 _ G1) as (w2 & G2). rewrite G2.
  pose proof (fun q => log_keeps_elsewhere _ _ _ _ _ _ q G2) as K2.
  rewrite (K2 _ Np), (K1 _ Np), L.
  destruct (scan_loop pf file_types (rglob drive_path drive) [])
    as [found [err|]]; cbn [fst snd].
  - destruct (log_again _ _ _ _ _ (Log_scan_error err) _ G2) as (w3 & G3).
    rewrite G3. exists w3. split; [reflexivity|]. split; [reflexivity|].
    intros q Nq.
    now rewrite (log_keeps_elsewhere _ _ _ _ _ _ _ G3 Nq), (K2 _ Nq), (K1 _ Nq).
  - destruct (log_again _ _ _ _ _ (Log_phase1_complete (length found)) _ G2)
      as (w3 & G3).
    rewrite G3.
    destruct (log_again _ _ _ _ _
                (if is_admin pf then Log_admin else Log_no_admin) _ G3)
      as (w4 & G4).
    rewrite G4. exists w4. split; [reflexivity|]. split; [reflexivity|].
    intros q Nq.
    now rewrite (log_keeps_elsewhere _ _ _ _ _ _ _ G4 Nq),
                (log_keeps_elsewhere _ _ _ _ _ _ _ G3 Nq), (K2 _ Nq), (K1 _ Nq).
Qed.

End ScanDrive.

(** ** The claims on scan and recovery *)

(** C7 does not hold of the code. [is_file()] is called outside the inner
    [try]: in a subdirectory that can be listed but not searched it raises
    [PermissionError], the outer [except] ends the loop, and the readable
    file in the sibling directory is never reached: the scan returns the
    empty list.  With that subdirectory closed altogether, which [rglob]
    passes over, the same file is found. *)
Theorem scan_stops_in_list_only_directory
    (sha : bytes -> string) (line : nat -> log_event -> bytes) :
  content_at list_only_tree ["evidence"; "open"; "a.png"]%string = Some png_16 /\
  snd (scan_drive_deep (demo_platform sha line) demo_recovery_path
         (mk_world list_only_tree 0) ["evidence"%string] None)
  = Ok [] /\
  scan_caught (demo_platform sha line) demo_recovery_path
    (mk_world list_only_tree 0) ["evidence"%string] None
  = Some PermissionError /\
  snd (scan_drive_deep (demo_platform sha line) demo_recovery_path
         (mk_world locked_tree 0) ["evidence"%string] None)
  = Ok [mk_found ["evidence"; "open"; "a.png"]%string "a.png" 16 "png" 7
                 "existing" true].
Proof.
  repeat split.
Qed.

Lemma detect_png (rest : bytes) :
  8 <= len rest ->
  Universal.detect_file_type (firstn 32 (png_magic ++ rest)) = "png"%string.
Proof.
  intros H. change (firstn 32 (png_magic ++ rest)) with (png_magic ++ firstn 24 rest).
  unfold Universal.detect_file_type, Universal.detect_file_type_with.
  replace (len (png_magic ++ firstn 24 rest) <? 16) with false; [reflexivity|].
  symmetry. apply Z.ltb_ge. unfold len in *.
  rewrite length_app, length_firstn.
  change (length png_magic) with 8%nat. lia.
Qed.

Lemma lookup_only_child (fs : node) (drive_path : path) (dname fname : string)
    (l wd : bool) (file : node) :
  node_name file = fname ->
  lookup fs drive_path = Found (Dir dname l wd true [file]) ->
  lookup fs (drive_path ++ [fname]) = Found file.
Proof.
  intros N H. rewrite (lookup_app _ _ _ _ H). simpl. unfold named.
  now rewrite N, String.eqb_refl.
Qed.

(** C6, as the code has it.  Take a directory, listable and searchable,
    that holds exactly one entry: a readable file that begins with the PNG
    magic bytes and holds at least 16 bytes in all, with a modification
    time [fromtimestamp] accepts; let the log file lie outside that
    directory and be writable.  Then the scan returns exactly one entry,
    tagged [png]; and whenever [recover_file] succeeds on that entry, the
    recover-all loop gives exactly one recovered entry, for that file,
    whose hash is the SHA-256 of the full content. *)
Theorem tree_scan_png (pf : platform) (recovery_path : path) (w w1 : world)
    (drive_path : path) (dname fname : string) (wd wr : bool)
    (rest : bytes) (mtime : Z) :
  lookup (w_fs w) drive_path
    = Found (Dir dname true wd true [File fname true wr (png_magic ++ rest) mtime]) ->
  8 <= len rest ->
  fromtimestamp pf mtime = Ok tt ->
  is_prefix drive_path (log_file recovery_path) = false ->
  log pf recovery_path w (Log_scan_start drive_path) = (w1, Ok tt) ->
  exists w2,
    scan_drive_deep pf recovery_path w drive_path None
    = (w2, Ok [mk_found (drive_path ++ [fname]) fname (len (png_magic ++ rest))
                        "png" mtime "existing" true]) /\
    forall w3 r,
      recover_file pf recovery_path w2
        (mk_found (drive_path ++ [fname]) fname (len (png_magic ++ rest))
                  "png" mtime "existing" true) None
      = (w3, Returns r) ->
      success r = true ->
      r = Recovered (drive_path ++ [fname])
                    (recovery_folder pf recovery_path w2 ++ [fname])
                    (sha256_hexdigest pf (png_magic ++ rest))
                    (len (png_magic ++ rest)) /\
      main_recover_all pf recovery_path w2
        [mk_found (drive_path ++ [fname]) fname (len (png_magic ++ rest))
                  "png" mtime "existing" true] []
      = (w3, [r], None).
Proof.
  intros L Hrest T Np G1.
  destruct (scan_drive_deep_runs pf recovery_path w w1 drive_path None _ G1 Np L)
    as (w2 & Hs & _ & K).
  exists w2. split.
  - rewrite Hs. do 2 f_equal.
    change (rglob drive_path
              (Dir dname true wd true [File fname true wr (png_magic ++ rest) mtime]))
      with [(drive_path ++ [fname], true,
             File fname true wr (png_magic ++ rest) mtime)].
    cbn [scan_loop scan_item]. rewrite (detect_png rest Hrest), T. reflexivity.
  - intros w3 r R Sr.
    destruct (recover_file_success pf recovery_path w2 w3 _ r R Sr)
      as (nm & wr' & content & mt & Ls & -> & _ & _).
    cbn [ff_path] in Ls.
    rewrite (K _ (is_prefix_longer _ [fname] _ Np)) in Ls.
    rewrite (lookup_only_child _ _ _ fname _ _
               (File fname true wr (png_magic ++ rest) mtime) eq_refl L) in Ls.
    injection Ls as <- <- <- <-.
    split.
    + unfold destination. cbn [ff_path]. now rewrite last_last.
    + cbn [main_recover_all]. rewrite R. reflexivity.
Qed.

Lemma tree_scan_png_witness :
  exists w2 w3,
    scan_drive_deep plain_platform demo_recovery_path
      (mk_world single_png_tree 0) ["evidence"%string] None
    = (w2, Ok [mk_found ["evidence"; "a.png"]%string "a.png" 16 "png" 0
                        "existing" true]) /\
    main_recover_all plain_platform demo_recovery_path w2
      [mk_found ["evidence"; "a.png"]%string "a.png" 16 "png" 0 "existing" true] []
    = (w3,
       [Recovered ["evidence"; "a.png"]%string
                  ["forensic_recovery"; "20240101_120000"; "a.png"]%string
                  "89504e470d0a1a0a0000000000000000" 16],
       None).
Proof.
  assert (H8 : 8 <= len (repeat x00 8)) by (unfold len; simpl; lia).
  destruct (tree_scan_png plain_platform demo_recovery_path
              (mk_world single_png_tree 0)
              (fst (log plain_platform demo_recovery_path
                      (mk_world single_png_tree 0)
                      (Log_scan_start ["evidence"%string])))
              ["evidence"%string] "evidence" "a.png" true true (repeat x00 8) 0
              eq_refl H8 eq_refl eq_refl eq_refl)
    as (w2 & Hs & Hr).
  assert (E : fst (scan_drive_deep plain_platform demo_recovery_path
                     (mk_world single_png_tree 0) ["evidence"%string] None) = w2)
    by (now rewrite Hs).
  vm_compute in E. subst w2.
  eexists. eexists. split; [exact Hs|].
  match type of Hr with
  | forall w3 r, ?call = _ -> _ =>
      destruct (Hr (fst call)
                   (Recovered ["evidence"; "a.png"]%string
                      ["forensic_recovery"; "20240101_120000"; "a.png"]%string
                      "89504e470d0a1a0a0000000000000000" 16)
                   eq_refl eq_refl) as [_ M]
  end.
  exact M.
Defined.

(** C6 fails as stated: a file that holds the eight PNG magic bytes and
    nothing else is entered with the tag [unknown]. *)
Lemma bare_png_is_unknown :
  lookup bare_png_tree ["evidence"%string]
    = Found (Dir "evidence" true true true [File "a.png" true true png_magic 0]) /\
  forall sha line,
    snd (scan_drive_deep (demo_platform sha line) demo_recovery_path
           (mk_world bare_png_tree 0) ["evidence"%string] None)
    = Ok [mk_found ["evidence"; "a.png"]%string "a.png" 8 "unknown" 0
                   "existing" true].
Proof.
  split; reflexivity.
Qed.

(** C3, as the code has it.  The recover-all loop appends to the list of
    recovered files the result of every call of [recover_file] that
    succeeded, in call order, and nothing else; each such result names its
    candidate's path and carries the SHA-256 and the length of the content
    the file at that path held when the call began.  Nothing is compared
    with the entries already there. *)
Theorem recovered_files_keep_every_success (pf : platform) (recovery_path : path)
    (w : world) (scan_results : list found_file)
    (recovered_files : list recover_result) :
  snd (fst (main_recover_all pf recovery_path w scan_results recovered_files))
  = recovered_files ++ successes (calls pf recovery_path w scan_results) /\
  forall wk item r,
    In (wk, item, Returns r) (calls pf recovery_path w scan_results) ->
    success r = true ->
    In item scan_results /\
    exists content,
      content_at (w_fs wk) (ff_path item) = Some content /\
      r = Recovered (ff_path item) (destination pf recovery_path wk item)
                    (sha256_hexdigest pf content) (len content).
Proof.
  split; [apply main_recover_all_calls|].
  intros wk item r H Sr.
  destruct (calls_are_calls _ _ _ _ _ _ _ H) as [I (w' & R)].
  split; [exact I|].
  destruct (recover_file_success _ _ _ _ _ _ R Sr)
    as (nm & wr & content & mt & Ls & -> & _ & _).
  exists content. split; [|reflexivity].
  unfold content_at. now rewrite Ls.
Qed.

(** C3 fails as stated: two candidates with identical bytes give two
    entries with one and the same hash. *)
Lemma identical_content_recovered_twice :
  content_at twin_tree ["evidence"; "a.png"]%string = Some png_16 /\
  content_at twin_tree ["evidence"; "b.png"]%string = Some png_16 /\
  forall sha line,
    snd (scan_drive_deep (demo_platform sha line) demo_recovery_path
           (mk_world twin_tree 0) ["evidence"%string] None)
    = Ok [mk_found ["evidence"; "a.png"]%string "a.png" 16 "png" 0 "existing" true;
          mk_found ["evidence"; "b.png"]%string "b.png" 16 "png" 0 "existing" true] /\
    snd (fst (main_recover_all (demo_platform sha line) demo_recovery_path
                (fst (scan_drive_deep (demo_platform sha line) demo_recovery_path
                        (mk_world twin_tree 0) ["evidence"%string] None))
                [mk_found ["evidence"; "a.png"]%string "a.png" 16 "png" 0
                          "existing" true;
                 mk_found ["evidence"; "b.png"]%string "b.png" 16 "png" 0
                          "existing" true] []))
    = [Recovered ["evidence"; "a.png"]%string
                 ["forensic_recovery"; "20240101_120000"; "a.png"]%string
                 (sha png_16) 16;
       Recovered ["evidence"; "b.png"]%string
                 ["forensic_recovery"; "20240101_120000"; "b.png"]%string
                 (sha png_16) 16].
Proof.
  split; [reflexivity|]. split; [reflexivity|].
  intros sha line. split; reflexivity.
Qed.

(** C8, as the code has it.  [recover_file] looks at no size.  For a
    candidate that is a readable file of any length, zero included: when
    the timestamp folder can be made, the copy goes through to a place that
    is not a directory, and the line can be logged, the call succeeds with
    that length as size and the SHA-256 of the content as hash, and the
    loop of [main] appends the result. *)
Theorem recover_file_accepts_any_length (pf : platform) (recovery_path : path)
    (w w3 : world) (item : found_file) (name : string) (wr : bool)
    (content : bytes) (mtime : Z) (fs1 fs2 : node)
    (recovered_files : list recover_result) :
  lookup (w_fs w) (ff_path item) = Found (File name true wr content mtime) ->
  mkdir_p (w_fs w) (recovery_folder pf recovery_path w) = Ok fs1 ->
  isdir fs1 (destination pf recovery_path w item) = false ->
  copy2 fs1 (ff_path item) (destination pf recovery_path w item) = Ok fs2 ->
  log pf recovery_path (mk_world fs2 (S (w_clock w)))
      (Log_recovered (last (ff_path item) EmptyString)) = (w3, Ok tt) ->
  recover_file pf recovery_path w item None
  = (w3, Returns (Recovered (ff_path item) (destination pf recovery_path w item)
                            (sha256_hexdigest pf content) (len content))) /\
  main_recover_all pf recovery_path w [item] recovered_files
  = (w3,
     recovered_files ++
       [Recovered (ff_path item) (destination pf recovery_path w item)
                  (sha256_hexdigest pf content) (len content)],
     None).
Proof.
  intros Ls M D C G.
  pose proof (recover_file_goes_through pf recovery_path w w3 item name wr
                content mtime fs1 fs2 Ls M D C G) as R.
  split; [exact R|].
  cbn [main_recover_all]. rewrite R. reflexivity.
Qed.

Lemma recover_file_accepts_any_length_witness :
  exists w3,
    recover_file plain_platform demo_recovery_path (mk_world empty_file_tree 0)
      (mk_found ["evidence"; "empty.jpg"]%string "empty.jpg" 0 "unknown" 0
                "existing" true) None
    = (w3,
       Returns (Recovered ["evidence"; "empty.jpg"]%string
                  ["forensic_recovery"; "20240101_120000"; "empty.jpg"]%string
                  EmptyString 0)) /\
    main_recover_all plain_platform demo_recovery_path (mk_world empty_file_tree 0)
      [mk_found ["evidence"; "empty.jpg"]%string "empty.jpg" 0 "unknown" 0
                "existing" true] []
    = (w3,
       [Recovered ["evidence"; "empty.jpg"]%string
                  ["forensic_recovery"; "20240101_120000"; "empty.jpg"]%string
                  EmptyString 0],
       None).
Proof.
  eexists.
  refine (recover_file_accepts_any_length plain_platform demo_recovery_path
            (mk_world empty_file_tree 0) _
            (mk_found ["evidence"; "empty.jpg"]%string "empty.jpg" 0 "unknown" 0
                      "existing" true)
            "empty.jpg" true [] 0 _ _ [] _ _ _ _ _); reflexivity.
Defined.

(** C8 fails as stated: an empty file is found by the scan, recovered with
    size 0 and entered in the list of recovered files. *)
Lemma empty_file_is_recovered :
  content_at empty_file_tree ["evidence"; "empty.jpg"]%string = Some [] /\
  forall sha line,
    snd (scan_drive_deep (demo_platform sha line) demo_recovery_path
           (mk_world empty_file_tree 0) ["evidence"%string] None)
    = Ok [mk_found ["evidence"; "empty.jpg"]%string "empty.jpg" 0 "unknown" 0
                   "existing" true] /\
    snd (fst (main_recover_all (demo_platform sha line) demo_recovery_path
                (fst (scan_drive_deep (demo_platform sha line) demo_recovery_path
                        (mk_world empty_file_tree 0) ["evidence"%string] None))
                [mk_found ["evidence"; "empty.jpg"]%string "empty.jpg" 0 "unknown" 0
                          "existing" true] []))
    = [Recovered ["evidence"; "empty.jpg"]%string
                 ["forensic_recovery"; "20240101_120000"; "empty.jpg"]%string
                 (sha []) 0].
Proof.
  split; [reflexivity|]. intros sha line. split; reflexivity.
Qed.
(** * Further properties of the code *)

(** ** The buffer scan: noise, empty patterns, size of the result *)

Lemma greedy_nil_iff (data sig : bytes) (offs : list Z) :
  greedy data sig 0 offs ->
  (offs = [] <-> forall p, ~ occurs data sig p).
Proof.
  intros G. split.
  - intros -> p Occ. inversion G as [pos R|]; subst.
    apply (find_miss data sig 0 ltac:(lia) R p); [apply Occ | exact Occ].
  - intros No. inversion G as [|pos offs' R G']; subst; [reflexivity|].
    exfalso. destruct (find_hit data sig 0 ltac:(lia) R) as (_ & Occ & _).
    exact (No _ Occ).
Qed.

Lemma carved_by_nil_iff (data : bytes) (l : list (string * bytes))
    (out : list carved_file) :
  carved_by data l out ->
  (out = [] <-> forall t sig p, In (t, sig) l -> ~ occurs data sig p).
Proof.
  induction 1 as [|t sig rest offs out G C IH].
  - split; [intros _ t sig p [] | reflexivity].
  - pose proof (greedy_nil_iff _ _ _ G) as GI. split.
    + intros E. apply app_eq_nil in E as [E1 E2].
      assert (offs = []) as Eo by (destruct offs; [reflexivity | discriminate]).
      intros t' sig' p [Hin | Hin].
      * injection Hin as <- <-. now apply GI.
      * now apply (proj1 IH E2 t' sig' p).
    + intros No.
      assert (offs = []) as -> by (apply GI; intros p; apply (No t sig); now left).
      simpl. apply IH. intros t' sig' p Hin. apply (No t' sig'). now right.
Qed.

Lemma find_none_without_occurrence (data sig : bytes) :
  (forall p, ~ occurs data sig p) -> find data sig 0 = -1.
Proof.
  intros No. destruct (Z.eq_dec (find data sig 0) (-1)) as [E | Ne]; [exact E|].
  exfalso. destruct (find_hit data sig 0 ltac:(lia) Ne) as (_ & Occ & _).
  exact (No _ Occ).
Qed.

Lemma scan_signatures_noise (data : bytes) (file_type : string) (fuel : nat)
    (signatures : list bytes) (carved : list carved_file) :
  (forall sig p, In sig signatures -> ~ occurs data sig p) ->
  scan_signatures (S fuel) data file_type signatures carved = Some carved.
Proof.
  induction signatures as [|sig rest IH]; intros No; [reflexivity|].
  cbn [scan_signatures scan_signature].
  rewrite find_none_without_occurrence
    by (intros p; apply (No sig p); now left).
  cbn [Z.eqb Pos.eqb]. apply IH. intros s p Hs. apply No. now right.
Qed.

Lemma scan_items_noise (data : bytes) (fuel : nat) (sigs : Android.registry)
    (carved : list carved_file) :
  (forall t sig p, In (t, sig) (pairs sigs) -> ~ occurs data sig p) ->
  scan_items (S fuel) data sigs carved = Some carved.
Proof.
  induction sigs as [|[t ss] sigs IH]; intros No; [reflexivity|].
  cbn [scan_items]. rewrite scan_signatures_noise.
  - apply IH. intros t' sig p Hin. apply (No t' sig p).
    simpl. apply in_or_app. now right.
  - intros sig p Hs. apply (No t sig p). simpl. apply in_or_app. left.
    now apply in_map.
Qed.

(** X1. Noise gives nothing, and only noise does: with fuel for a single
    turn of each loop, the scan returns the empty list exactly when no
    registered pattern occurs anywhere in the buffer. *)
Theorem carve_empty_iff_noise (sigs : Android.registry) (fuel : nat) (data : bytes) :
  carve_files_from_data_with sigs (S fuel) data = Some [] <->
  (forall file_type sig p, In (file_type, sig) (pairs sigs) -> ~ occurs data sig p).
Proof.
  split.
  - intros H. apply carve_structure in H.
    now apply (carved_by_nil_iff _ _ _ H).
  - intros No. unfold carve_files_from_data_with. now apply scan_items_noise.
Qed.

(** X2. A table that registers the empty pattern hangs the scan: it
    returns for no amount of fuel, whatever the buffer. *)
Theorem carve_hangs_on_empty_pattern
    (sigs : Android.registry) (file_type : string) (data : bytes) :
  In (file_type, []) (pairs sigs) ->
  forall fuel, carve_files_from_data_with sigs fuel data = None.
Proof.
  intros Hin fuel.
  destruct (carve_files_from_data_with sigs fuel data) as [out|] eqn:E;
    [|reflexivity].
  exfalso. apply carve_structure in E.
  destruct (carved_by_pair _ _ _ E _ _ Hin) as (offs & G & _).
  apply greedy_pattern_nonempty in G; [|unfold len; lia].
  unfold len in G. simpl in G. lia.
Qed.

Lemma carve_hangs_on_empty_pattern_witness :
  In ("any"%string, []) (pairs [("any"%string, [[]])]) /\
  forall fuel, carve_files_from_data_with [("any"%string, [[]])] fuel [x41] = None.
Proof.
  assert (H : In ("any"%string, []) (pairs [("any"%string, [[]])]))
    by (simpl; auto).
  split; [exact H|].
  exact (carve_hangs_on_empty_pattern [("any"%string, [[]])] "any" [x41] H).
Defined.

Lemma greedy_count (data sig : bytes) (pos : Z) (offs : list Z) :
  greedy data sig pos offs -> 0 <= pos ->
  len offs * len sig <= Z.max 0 (len data - pos).
Proof.
  induction 1 as [pos R | pos offs R G IH]; intros H0.
  - unfold len at 1. simpl. lia.
  - destruct (find_hit data sig pos H0 R) as (Hge & Occ & _).
    apply occurs_fits in Occ.
    assert (0 <= len sig) by (unfold len; lia).
    specialize (IH ltac:(lia)).
    unfold len at 1. unfold len at 1 in IH. simpl length.
    rewrite Nat2Z.inj_succ. lia.
Qed.

Lemma carved_by_count (data : bytes) (l : list (string * bytes))
    (out : list carved_file) :
  carved_by data l out -> len out <= len l * len data.
Proof.
  induction 1 as [|t sig rest offs out G C IH].
  - unfold len. simpl. lia.
  - pose proof (greedy_count _ _ _ _ G ltac:(lia)) as Cnt.
    pose proof (greedy_pattern_nonempty _ _ _ _ G ltac:(unfold len; lia)) as Pos.
    unfold len in *. rewrite length_app. unfold block. rewrite length_map.
    simpl length. rewrite Nat2Z.inj_add, Nat2Z.inj_succ. nia.
Qed.

(** X3. The result is bounded by the input: for each (tag, pattern) pair
    the records times the pattern's length fit in the buffer, so the scan
    returns at most one record per pair and buffer byte. *)
Theorem carve_result_bounded
    (sigs : Android.registry) (fuel : nat) (data : bytes) (out : list carved_file) :
  carve_files_from_data_with sigs fuel data = Some out ->
  len out <= len (pairs sigs) * len data.
Proof.
  intros H. apply carve_structure in H. now apply carved_by_count.
Qed.

Lemma carve_result_bounded_witness :
  carve_files_from_data 3 pk_magic
    = Some [mk_carved "zip" 0 "504b0304"; mk_carved "docx" 0 "504b0304"] /\
  len [mk_carved "zip" 0 "504b0304"; mk_carved "docx" 0 "504b0304"]
    <= len (pairs Android.file_signatures) * len pk_magic.
Proof.
  assert (H : carve_files_from_data 3 pk_magic
              = Some [mk_carved "zip" 0 "504b0304"; mk_carved "docx" 0 "504b0304"])
    by reflexivity.
  split; [exact H|].
  exact (carve_result_bounded Android.file_signatures 3 pk_magic _ H).
Defined.

(** ** The matcher: what it answers and what it never answers *)

Lemma first_match_cases (sigs : Universal.registry) (data : bytes) :
  (first_match sigs data = "unknown"%string /\
   forall t sig, In (t, sig) (pairs sigs) -> startswith data sig = false)
  \/
  (exists sig, In (first_match sigs data, sig) (pairs sigs) /\
               startswith data sig = true).
Proof.
  rewrite first_match_find.
  destruct (List.find (fun p => startswith data (snd p)) (pairs sigs))
    as [[t sig]|] eqn:F.
  - right. apply find_some in F as [Hin Hm]. exists sig. auto.
  - left. split; [reflexivity|]. intros t sig Hin.
    apply (find_none _ _ F (t, sig) Hin).
Qed.

Lemma android_unknown_not_key (sig : bytes) :
  ~ In ("unknown"%string, sig) (pairs Android.file_signatures).
Proof.
  simpl. intros H.
  repeat (destruct H as [H | H]; [discriminate H|]). exact H.
Qed.

Lemma universal_unknown_not_key (sig : bytes) :
  ~ In ("unknown"%string, sig) (pairs Universal.file_signatures).
Proof.
  simpl. intros H.
  repeat (destruct H as [H | H]; [discriminate H|]). exact H.
Qed.

(** X4. The Android matcher answers [unknown] exactly when no registered
    pattern is a prefix of the data; any other answer is a tag one of
    whose registered patterns is a prefix of the data. *)
Theorem android_detect_sound_complete (data : bytes) :
  (Android.detect_file_type data = "unknown"%string <->
   forall file_type sig,
     In (file_type, sig) (pairs Android.file_signatures) ->
     startswith data sig = false) /\
  (Android.detect_file_type data <> "unknown"%string ->
   exists sig,
     In (Android.detect_file_type data, sig) (pairs Android.file_signatures) /\
     startswith data sig = true).
Proof.
  unfold Android.detect_file_type. rewrite android_detect_is_first_match.
  destruct (first_match_cases Android.file_signatures data)
    as [[U No] | (sig & Hin & Hm)].
  - split; [split; auto | congruence].
  - split; [split | eauto].
    + intros E. rewrite E in Hin. now apply android_unknown_not_key in Hin.
    + intros No. rewrite (No _ _ Hin) in Hm. discriminate.
Qed.

(** X5. The universal matcher answers [unknown] exactly when the data is
    shorter than 16 bytes or no registered pattern is a prefix of it; any
    other answer is a tag one of whose registered patterns is a prefix of
    the data, which then holds at least 16 bytes. *)
Theorem universal_detect_sound_complete (data : bytes) :
  (Universal.detect_file_type data = "unknown"%string <->
   len data < 16 \/
   forall file_type sig,
     In (file_type, sig) (pairs Universal.file_signatures) ->
     startswith data sig = false) /\
  (Universal.detect_file_type data <> "unknown"%string ->
   16 <= len data /\
   exists sig,
     In (Universal.detect_file_type data, sig) (pairs Universal.file_signatures) /\
     startswith data sig = true).
Proof.
  unfold Universal.detect_file_type, Universal.detect_file_type_with.
  destruct (len data <? 16) eqn:L.
  - apply Z.ltb_lt in L. split; [split; auto | congruence].
  - apply Z.ltb_ge in L.
    destruct (first_match_cases Universal.file_signatures data)
      as [[U No] | (sig & Hin & Hm)].
    + split; [split; auto | congruence].
    + split; [split | eauto].
      * intros E. rewrite E in Hin. now apply universal_unknown_not_key in Hin.
      * intros [Short | No]; [lia|]. rewrite (No _ _ Hin) in Hm. discriminate.
Qed.

Lemma startswith_trans (data s e : bytes) :
  startswith data s = true -> startswith s e = true -> startswith data e = true.
Proof.
  revert data s; induction e as [|x e IH]; intros data s Hs He; [reflexivity|].
  destruct s as [|y s]; [discriminate|].
  destruct data as [|d data]; [discriminate|].
  simpl in *.
  apply andb_true_iff in Hs as [E1 Hs]. apply andb_true_iff in He as [E2 He].
  apply Byte.byte_dec_bl in E1, E2. subst.
  rewrite (Byte.byte_dec_lb (eq_refl x)). simpl. now apply (IH data s).
Qed.

Lemma first_match_shadowed (sigs : Universal.registry) (t : string) (data : bytes) :
  t <> "unknown"%string ->
  forall earlier,
    shadowed earlier sigs t = true ->
    (forall e, In e earlier -> startswith data e = false) ->
    first_match sigs data <> t.
Proof.
  intros Ht. induction sigs as [|[t' ss] sigs IH]; intros earlier Sh Hearlier; simpl.
  - congruence.
  - simpl in Sh. apply andb_true_iff in Sh as [Here Sh].
    destruct (existsb (startswith data) ss) eqn:M.
    + intros ->. rewrite String.eqb_refl in Here.
      apply existsb_exists in M as (s & Hs & Ms).
      rewrite forallb_forall in Here. specialize (Here s Hs).
      apply existsb_exists in Here as (e & He & Me).
      pose proof (startswith_trans _ _ _ Ms Me) as Hit.
      rewrite (Hearlier e He) in Hit. discriminate.
    + apply (IH (earlier ++ ss) Sh). intros e He.
      apply in_app_or in He as [He | He]; [now apply Hearlier|].
      destruct (startswith data e) eqn:Me; [|reflexivity].
      assert (existsb (startswith data) ss = true)
        by (apply existsb_exists; eauto).
      congruence.
Qed.

(** X6. Tags that are never answered. Every pattern of [xls], [xlsx],
    [ppt], [pptx], [avi] and [dll] in the universal table, and of [docx] in
    the Android table, is registered under an earlier tag, so the matcher
    answers none of these, whatever the data. *)
Theorem detect_never_answers_shadowed_tags (data : bytes) :
  Forall (fun file_type => Universal.detect_file_type data <> file_type)
         ["xls"; "xlsx"; "ppt"; "pptx"; "avi"; "dll"]%string /\
  Android.detect_file_type data <> "docx"%string.
Proof.
  split.
  - assert (U : forall t, t <> "unknown"%string ->
                  shadowed [] Universal.file_signatures t = true ->
                  Universal.detect_file_type data <> t).
    { intros t Ht Sh.
      unfold Universal.detect_file_type, Universal.detect_file_type_with.
      destruct (len data <? 16); [congruence|].
      apply (first_match_shadowed _ t data Ht [] Sh). intros e []. }
    repeat constructor; apply U; solve [discriminate | vm_compute; reflexivity].
  - unfold Android.detect_file_type. rewrite android_detect_is_first_match.
    apply (first_match_shadowed _ "docx"%string data ltac:(discriminate) []);
      [vm_compute; reflexivity | intros e []].
Qed.

(** ** Scanning, then matching at a reported offset *)

Lemma find_agree {A : Type} (f g : A -> bool) (l : list A) :
  (forall x, In x l -> f x = g x) -> List.find f l = List.find g l.
Proof.
  induction l as [|x l IH]; intros H; simpl; [reflexivity|].
  rewrite (H x) by now left.
  destruct (g x); [reflexivity|]. apply IH. intros y Hy. apply H. now right.
Qed.

Lemma same_length_prefixes (w p q : bytes) :
  startswith w p = true -> startswith w q = true -> len p = len q -> p = q.
Proof.
  intros Hp Hq E. apply startswith_firstn in Hp, Hq.
  unfold len in E. apply Nat2Z.inj in E. rewrite E in Hp. congruence.
Qed.

Lemma matching_pattern_is_unique (all : list (string * bytes)) (w : bytes)
    (t : string) (sig : bytes) :
  no_proper_prefix all = true -> In (t, sig) all -> startswith w sig = true ->
  forall p, In p all -> startswith w (snd p) = true -> snd p = sig.
Proof.
  intros NP Hin Hs p Hp Hm.
  unfold no_proper_prefix in NP. rewrite forallb_forall in NP.
  apply (same_length_prefixes w); auto.
  destruct (Z.le_ge_cases (len (snd p)) (len sig)) as [Le | Ge].
  - specialize (NP p Hp). rewrite forallb_forall in NP.
    specialize (NP (t, sig) Hin). simpl in NP.
    rewrite (common_prefix w (snd p) sig Hm Hs Le) in NP. simpl in NP.
    now apply Z.eqb_eq in NP.
  - specialize (NP (t, sig) Hin). rewrite forallb_forall in NP.
    specialize (NP p Hp). simpl in NP.
    rewrite (common_prefix w sig (snd p) Hs Hm ltac:(lia)) in NP. simpl in NP.
    apply Z.eqb_eq in NP. lia.
Qed.

Lemma first_match_is_first_tag (sigs : Universal.registry) (w : bytes)
    (t : string) (sig : bytes) :
  no_proper_prefix (pairs sigs) = true ->
  In (t, sig) (pairs sigs) -> startswith w sig = true ->
  first_match sigs w = first_tag_of (pairs sigs) sig.
Proof.
  intros NP Hin Hs. rewrite first_match_find. unfold first_tag_of.
  rewrite (find_agree (fun p => startswith w (snd p))
             (fun p => if list_eq_dec Byte.byte_eq_dec (snd p) sig
                       then true else false)); [reflexivity|].
  intros p Hp. destruct (list_eq_dec Byte.byte_eq_dec (snd p) sig) as [E | Ne].
  - now rewrite E.
  - destruct (startswith w (snd p)) eqn:Hm; [|reflexivity].
    exfalso. apply Ne.
    now apply (matching_pattern_is_unique (pairs sigs) w t sig).
Qed.

Lemma android_first_tags :
  forall t sig,
    In (t, sig) (pairs Android.file_signatures) ->
    first_tag_of (pairs Android.file_signatures) sig
    = if String.eqb t "docx" then "zip"%string else t.
Proof.
  assert (H : forallb
                (fun p => String.eqb
                            (first_tag_of (pairs Android.file_signatures) (snd p))
                            (if String.eqb (fst p) "docx" then "zip"%string
                             else fst p))
                (pairs Android.file_signatures) = true)
    by (vm_compute; reflexivity).
  rewrite forallb_forall in H. intros t sig Hin.
  apply String.eqb_eq. exact (H (t, sig) Hin).
Qed.

(** X7. Scan and matcher agree up to the shared pattern: at the offset of
    every record the scan produces, the Android matcher answers the
    record's tag, except that a [docx] record is answered [zip]. *)
Theorem carved_offsets_are_detected
    (fuel : nat) (data : bytes) (out : list carved_file) :
  carve_files_from_data fuel data = Some out ->
  forall e, In e out ->
    Android.detect_file_type (skipn (Z.to_nat (cf_offset e)) data)
    = if String.eqb (cf_type e) "docx" then "zip"%string else cf_type e.
Proof.
  intros H e He. apply carve_structure in H.
  destruct (carved_by_in _ _ _ H e He) as (sig & o & Hin & -> & [_ Occ]).
  simpl. unfold Android.detect_file_type.
  rewrite android_detect_is_first_match.
  rewrite (first_match_is_first_tag _ _ _ sig) by
    (try exact Hin; try exact Occ; vm_compute; reflexivity).
  now apply android_first_tags.
Qed.

Lemma carved_offsets_are_detected_witness :
  carve_files_from_data 3 pk_magic
    = Some [mk_carved "zip" 0 "504b0304"; mk_carved "docx" 0 "504b0304"] /\
  Android.detect_file_type (skipn (Z.to_nat 0) pk_magic) = "zip"%string.
Proof.
  assert (H : carve_files_from_data 3 pk_magic
              = Some [mk_carved "zip" 0 "504b0304"; mk_carved "docx" 0 "504b0304"])
    by reflexivity.
  split; [exact H|].
  exact (carved_offsets_are_detected 3 pk_magic _ H
           (mk_carved "docx" 0 "504b0304") (or_intror (or_introl eq_refl))).
Defined.


(** ** What every scan entry looks like *)

(** X17. Every entry of a tree scan lies strictly below the scanned path,
    is named after the last component of its own path, has a size that is
    not negative, a type among those asked for, the source [existing] and
    the flag [recoverable]; and a path that does not resolve to anything
    gives no entries at all. *)
Theorem scan_entries_well_formed (pf : platform) (recovery_path : path)
    (w : world) (drive_path : path) (file_types : option (list string)) :
  ((forall drive, lookup (w_fs w) drive_path <> Found drive) ->
   returned (scan_drive_deep pf recovery_path w drive_path file_types) = []) /\
  (forall e,
     In e (returned (scan_drive_deep pf recovery_path w drive_path file_types)) ->
     (exists rel, rel <> [] /\ ff_path e = drive_path ++ rel) /\
     ff_name e = last (ff_path e) EmptyString /\
     0 <= ff_size e /\
     wanted file_types (ff_type e) = true /\
     ff_source e = "existing"%string /\
     ff_recoverable e = true).
Proof.
  split; [apply scan_drive_deep_nowhere|].
  intros e He.
  apply scan_drive_deep_found in He as (drive & He).
  apply scan_loop_entries in He as [[] | ([[p a] n] & Hin & He)].
  apply rglob_visible in Hin. apply visible_path in Hin as (rel & Hrel & Hp & Hl).
  apply entries_of_inv in He as (_ & name & wr & content & mtime & -> & W & _ & ->).
  simpl in *.
  split; [eauto|]. split; [now rewrite Hl|]. split; [unfold len; lia|].
  split; [exact W|]. split; reflexivity.
Qed.

(** ** Restricting the scan to some types *)

Lemma filter_flat_map_entries (A B : Type) (keep : B -> bool) (f : A -> list B)
    (l : list A) :
  filter keep (flat_map f l) = flat_map (fun x => filter keep (f x)) l.
Proof.
  induction l as [|x l IH]; simpl; [reflexivity|].
  now rewrite filter_app, IH.
Qed.

Lemma flat_map_agree (A B : Type) (f g : A -> list B) (l : list A) :
  (forall x, In x l -> f x = g x) -> flat_map f l = flat_map g l.
Proof.
  induction l as [|x l IH]; intros H; simpl; [reflexivity|].
  rewrite (H x (or_introl eq_refl)), IH; [reflexivity|].
  intros y Hy. apply H. now right.
Qed.

Section Restriction.

Variable pf : platform.
Variable file_types : list string.

Local Abbreviation keep :=
  (fun e : found_file => existsb (String.eqb (ff_type e)) file_types).

Lemma restricted_item (item : path * bool * node) :
  stops pf None item = None ->
  stops pf (Some file_types) item = None /\
  entries_of pf (Some file_types) item = filter keep (entries_of pf None item).
Proof.
  unfold stops, entries_of, scan_item. destruct item as [[p a] n].
  destruct a; [|discriminate].
  destruct n as [name [|] wr content mtime | name l w x ch]; try (now split).
  cbn [wanted].
  destruct (fromtimestamp pf mtime) as [u|e].
  - intros _. cbn [app]. unfold filter. cbv beta. cbn [ff_type].
    destruct (existsb _ file_types); now split.
  - destruct (is_os_error e); [|discriminate]. intros _.
    destruct (existsb _ file_types); now split.
Qed.

Lemma restricted_loop (items : list (path * bool * node)) :
  snd (scan_loop pf None items []) = None ->
  scan_loop pf (Some file_types) items []
  = (filter keep (fst (scan_loop pf None items [])), None).
Proof.
  intros H. apply scan_loop_ran in H.
  rewrite (scan_loop_runs pf None items [] H). cbn [fst app].
  rewrite filter_flat_map_entries.
  rewrite scan_loop_runs.
  - cbn [app]. f_equal. apply flat_map_agree. intros item Hin.
    rewrite Forall_forall in H. exact (proj2 (restricted_item item (H item Hin))).
  - rewrite Forall_forall in *. intros item Hin.
    exact (proj1 (restricted_item item (H item Hin))).
Qed.

End Restriction.

(** X8. Asking for some types is filtering, as long as nothing cuts the
    unrestricted scan short: when the [try] of the scan for every type is
    not left by an exception, the scan restricted to [file_types] returns,
    in the same order, exactly the entries of the unrestricted scan whose
    type is one of [file_types]. *)
Theorem scan_with_types_is_filter (pf : platform) (recovery_path : path)
    (w : world) (drive_path : path) (file_types : list string) :
  scan_caught pf recovery_path w drive_path None = None ->
  returned (scan_drive_deep pf recovery_path w drive_path (Some file_types))
  = filter (fun e => existsb (String.eqb (ff_type e)) file_types)
           (returned (scan_drive_deep pf recovery_path w drive_path None)).
Proof.
  unfold scan_caught, scan_drive_deep.
  destruct (log pf recovery_path w _) as [w1 [u|e1]]; [|reflexivity].
  unfold scan_try.
  destruct (lookup (w_fs w1) drive_path) as [d1| |]; [| |discriminate].
  - destruct (log pf recovery_path w1 Log_phase1) as [w2 [u2|e2]] eqn:G2;
      [|discriminate].
    set (items := match lookup (w_fs w2) drive_path with
                  | Found drive => rglob drive_path drive
                  | _ => []
                  end).
    destruct (scan_loop pf None items []) as [found [err|]] eqn:Loop;
      [discriminate|].
    assert (Hl : snd (scan_loop pf None items []) = None) by now rewrite Loop.
    rewrite (restricted_loop pf file_types items Hl), Loop. cbn [fst].
    destruct (log pf recovery_path w2 (Log_phase1_complete (length found)))
      as [w3 [u3|e3]] eqn:G3; [|discriminate].
    destruct (log pf recovery_path w3 _) as [w4 [u4|e4]]; [|discriminate].
    intros _.
    destruct (log_any_line pf recovery_path w2 w3 _
                (Log_phase1_complete
                   (length (filter (fun e => existsb (String.eqb (ff_type e))
                                                     file_types) found)))
                u3 G3) as (w3' & G3').
    rewrite G3'.
    destruct (log_again pf recovery_path w2 w3' _
                (if is_admin pf then Log_admin else Log_no_admin) _ G3')
      as (w4' & G4').
    rewrite G4'. reflexivity.
  - destruct (log pf recovery_path w1 _) as [w2 [u2|e2]]; [reflexivity|].
    discriminate.
Qed.

Lemma scan_with_types_is_filter_witness :
  scan_caught plain_platform demo_recovery_path (mk_world mixed_tree 0)
    ["evidence"%string] None = None /\
  returned (scan_drive_deep plain_platform demo_recovery_path
              (mk_world mixed_tree 0) ["evidence"%string] None)
  = [mk_found ["evidence"; "a.png"]%string "a.png" 16 "png" 0 "existing" true;
     mk_found ["evidence"; "b.pdf"]%string "b.pdf" 16 "pdf" 0 "existing" true] /\
  returned (scan_drive_deep plain_platform demo_recovery_path
              (mk_world mixed_tree 0) ["evidence"%string] (Some ["pdf"%string]))
  = filter (fun e => existsb (String.eqb (ff_type e)) ["pdf"%string])
      [mk_found ["evidence"; "a.png"]%string "a.png" 16 "png" 0 "existing" true;
       mk_found ["evidence"; "b.pdf"]%string "b.pdf" 16 "pdf" 0 "existing" true].
Proof.
  split; [reflexivity|]. split; [reflexivity|].
  exact (scan_with_types_is_filter plain_platform demo_recovery_path
           (mk_world mixed_tree 0) ["evidence"%string] ["pdf"%string] eq_refl).
Defined.

(** ** When the scan is not cut short *)



(** ** Scan and recovery together *)






(** ** How [recover_file] fails *)

Section Failures.

Variable pf : platform.
Variable recovery_path : path.

Local Abbreviation log := (Universal.log pf recovery_path).
Local Abbreviation log_file := (Universal.log_file recovery_path).
Local Abbreviation on_exception := (Universal.on_exception pf recovery_path).
Local Abbreviation recover_file := (Universal.recover_file pf recovery_path).

(** A log line that has been written is the end of the log file. *)
Lemma log_ok_line (w w' : world) (event : log_event) (u : unit) :
  log w event = (w', Ok u) ->
  exists r ct mt,
    lookup (w_fs w') log_file
    = Found (File "forensic_log.txt" r true
                  (ct ++ log_entry pf (w_clock w) event) mt).
Proof.
  unfold Universal.log.
  destruct (write _ _ _) as [fs|] eqn:W; [|discriminate]. intros [= <- _].
  destruct (write_lookup _ (put_append_makes_files _ _) _ _ _ W) as (k & L & E).
  simpl. rewrite L, log_file_last in *.
  destruct (match lookup (w_fs w) log_file with Found k0 => Some k0 | _ => None end)
    as [[nm r [|] ct mt | nm l wd x ch]|]; simpl in E; try discriminate;
    injection E as <-.
  - eauto.
  - exists true, [], (time_now pf (w_clock w)). reflexivity.
Qed.

Lemma on_exception_logged (w w' : world) (e : exn) (r : recover_result) :
  on_exception w e = (w', Returns r) ->
  r = Failure (Str e) /\
  exists rd ct mt,
    lookup (w_fs w') log_file
    = Found (File "forensic_log.txt" rd true
                  (ct ++ log_entry pf (w_clock w) (Log_recovery_error e)) mt).
Proof.
  unfold Universal.on_exception.
  destruct (log w _) as [w1 [u|e']] eqn:G; intros [= <- <-].
  split; [reflexivity|]. exact (log_ok_line _ _ _ _ G).
Qed.

End Failures.

(** X10. How [recover_file] fails.  It answers [File not found] exactly
    when the path of the candidate leads nowhere, and has then touched
    nothing, the log included.  Every other failure it returns carries the
    text of an exception, and by then the line reporting that exception is
    the last line of the log file. *)
Theorem recover_file_not_found_or_logged (pf : platform) (recovery_path : path)
    (w : world) (item : found_file) (output_dir : option path) :
  (lookup (w_fs w) (ff_path item) = Missing ->
   recover_file pf recovery_path w item output_dir
   = (w, Returns (Failure (Text "File not found")))) /\
  (forall w' s,
     recover_file pf recovery_path w item output_dir
     = (w', Returns (Failure (Text s))) ->
     lookup (w_fs w) (ff_path item) = Missing /\ w' = w /\
     s = "File not found"%string) /\
  (forall w' e,
     recover_file pf recovery_path w item output_dir
     = (w', Returns (Failure (Str e))) ->
     exists k rd ct mt,
       lookup (w_fs w') (log_file recovery_path)
       = Found (File "forensic_log.txt" rd true
                     (ct ++ log_entry pf k (Log_recovery_error e)) mt)).
Proof.
  unfold recover_file.
  split; [now intros ->|].
  assert (T : forall w0 e0 w' s,
             on_exception pf recovery_path w0 e0
             = (w', Returns (Failure (Text s))) -> False).
  { intros w0 e0 w' s H. apply on_exception_logged in H as [H _]. discriminate. }
  assert (S : forall w0 e0 w' e,
             on_exception pf recovery_path w0 e0
             = (w', Returns (Failure (Str e))) ->
             exists k rd ct mt,
               lookup (w_fs w') (log_file recovery_path)
               = Found (File "forensic_log.txt" rd true
                             (ct ++ log_entry pf k (Log_recovery_error e)) mt)).
  { intros w0 e0 w' e H. apply on_exception_logged in H as [[= ->] H].
    exists (w_clock w0). exact H. }
  split.
  - intros w' s.
    destruct (lookup (w_fs w) (ff_path item));
      [| now intros [= <- <-] | intros H; now destruct (T _ _ _ _ H)].
    destruct (mkdir_p _ _); [| intros H; now destruct (T _ _ _ _ H)].
    destruct (copy2 _ _ _); [| intros H; now destruct (T _ _ _ _ H)].
    destruct (read_bytes _ _); [| intros H; now destruct (T _ _ _ _ H)].
    destruct (log _ _ _ _) as [w3 [u|e4]];
      [| intros H; now destruct (T _ _ _ _ H)].
    destruct (stat_size _ _ _); [discriminate | intros H; now destruct (T _ _ _ _ H)].
  - intros w' e.
    destruct (lookup (w_fs w) (ff_path item)); [| discriminate | apply S].
    destruct (mkdir_p _ _); [| apply S].
    destruct (copy2 _ _ _); [| apply S].
    destruct (read_bytes _ _); [| apply S].
    destruct (log _ _ _ _) as [w3 [u|e4]]; [| apply S].
    destruct (stat_size _ _ _); [discriminate | apply S].
Qed.

(** ** An earlier copy at the destination *)



(** ** The recover-all loop only appends *)

Lemma successes_facts (trace : list (world * found_file * outcome)) :
  Forall (fun r => success r = true) (successes trace) /\
  (length (successes trace) <= length trace)%nat /\
  forall r, In r (successes trace) ->
            exists wk item, In (wk, item, Returns r) trace /\ success r = true.
Proof.
  induction trace as [|[[wk item] o] trace (IH1 & IH2 & IH3)].
  - repeat split; [constructor | reflexivity | intros r []].
  - unfold successes in *. cbn [flat_map snd].
    destruct o as [[s d h n | err] | e]; cbn [app length].
    + split; [now constructor|]. split; [lia|].
      intros r [<- | H].
      * exists wk, item. split; [now left | reflexivity].
      * destruct (IH3 r H) as (wk' & item' & I & Sr).
        exists wk', item'. split; [now right | exact Sr].
    + split; [exact IH1|]. split; [lia|].
      intros r H. destruct (IH3 r H) as (wk' & item' & I & Sr).
      exists wk', item'. split; [now right | exact Sr].
    + split; [exact IH1|]. split; [lia|].
      intros r H. destruct (IH3 r H) as (wk' & item' & I & Sr).
      exists wk', item'. split; [now right | exact Sr].
Qed.

Lemma calls_length (pf : platform) (recovery_path : path)
    (items : list found_file) :
  forall w, (length (calls pf recovery_path w items) <= length items)%nat.
Proof.
  induction items as [|item items IH]; intros w; simpl; [lia|].
  destruct (recover_file pf recovery_path w item None) as [w' [r|e]]; simpl.
  - specialize (IH w'). lia.
  - lia.
Qed.

(** X12. The recover-all loop only appends: the entries already in
    [recovered_files] stay in front, in order; every entry added is a
    success whose source is the path of one of the candidates; and no more
    entries are added than there are candidates. *)
Theorem main_recover_all_appends (pf : platform) (recovery_path : path)
    (w : world) (scan_results : list found_file)
    (recovered_files : list recover_result) :
  exists added,
    snd (fst (main_recover_all pf recovery_path w scan_results recovered_files))
    = recovered_files ++ added /\
    Forall (fun r => success r = true) added /\
    (length added <= length scan_results)%nat /\
    incl (map rr_source added) (map ff_path scan_results).
Proof.
  exists (successes (calls pf recovery_path w scan_results)).
  destruct (successes_facts (calls pf recovery_path w scan_results))
    as (F & Len & Src).
  split; [apply main_recover_all_calls|]. split; [exact F|]. split.
  - pose proof (calls_length pf recovery_path scan_results w). lia.
  - intros s Hs. apply in_map_iff in Hs as (r & <- & Hr).
    destruct (Src r Hr) as (wk & item & I & Sr).
    destruct (calls_are_calls _ _ _ _ _ _ _ I) as [Hin (w' & R)].
    destruct (recover_file_success _ _ _ _ _ _ R Sr)
      as (nm & wr & content & mt & _ & -> & _ & _).
    cbn [rr_source]. now apply in_map.
Qed.

(** ** A recovery that has to succeed *)



(** ** The scan writes to the log only *)

Section ScanWrites.

Variable pf : platform.
Variable recovery_path : path.
Variable q : path.
Hypothesis away : is_prefix q (log_file recovery_path) = false.

Lemma log_keeps (w w' : world) (event : log_event) (r : result unit) :
  log pf recovery_path w event = (w', r) ->
  lookup (w_fs w') q = lookup (w_fs w) q.
Proof.
  intros G. exact (log_keeps_elsewhere pf recovery_path _ _ _ _ q G away).
Qed.

Lemma scan_try_keeps (w : world) (drive_path : path)
    (file_types : option (list string)) :
  lookup (w_fs (fst (fst (scan_try pf recovery_path w drive_path file_types)))) q
  = lookup (w_fs w) q.
Proof.
  unfold scan_try.
  destruct (lookup (w_fs w) drive_path).
  - destruct (log pf recovery_path w Log_phase1) as [w2 [u2|e2]] eqn:G2;
      [| exact (log_keeps _ _ _ _ G2)].
    destruct (scan_loop pf file_types _ []) as [found [err|]];
      [exact (log_keeps _ _ _ _ G2)|].
    destruct (log pf recovery_path w2 _) as [w3 [u3|e3]] eqn:G3;
      [| cbn [fst]; now rewrite (log_keeps _ _ _ _ G3), (log_keeps _ _ _ _ G2)].
    destruct (log pf recovery_path w3 _) as [w4 [u4|e4]] eqn:G4; cbn [fst];
      now rewrite (log_keeps _ _ _ _ G4), (log_keeps _ _ _ _ G3),
                  (log_keeps _ _ _ _ G2).
  - destruct (log pf recovery_path w _) as [w2 [u2|e2]] eqn:G2;
      exact (log_keeps _ _ _ _ G2).
  - reflexivity.
Qed.

End ScanWrites.

(** X20. A scan writes to its log and to nothing else: whatever it meets,
    and however it ends, every path that does not lead to the log file or
    to a directory above it resolves after the call to what it resolved to
    before. *)
Theorem scan_changes_only_the_log (pf : platform) (recovery_path : path)
    (w : world) (drive_path : path) (file_types : option (list string))
    (q : path) :
  is_prefix q (log_file recovery_path) = false ->
  lookup (w_fs (fst (scan_drive_deep pf recovery_path w drive_path file_types))) q
  = lookup (w_fs w) q.
Proof.
  intros away. unfold scan_drive_deep.
  destruct (log pf recovery_path w _) as [w1 [u|e1]] eqn:G1;
    [| exact (log_keeps pf recovery_path q away _ _ _ _ G1)].
  pose proof (scan_try_keeps pf recovery_path q away w1 drive_path file_types) as T.
  destruct (scan_try pf recovery_path w1 drive_path file_types)
    as [[w2 found] [err|]]; cbn [fst] in *.
  - destruct (log pf recovery_path w2 _) as [w3 [u3|e3]] eqn:G3; cbn [fst];
      now rewrite (log_keeps pf recovery_path q away _ _ _ _ G3), T,
                  (log_keeps pf recovery_path q away _ _ _ _ G1).
  - now rewrite T, (log_keeps pf recovery_path q away _ _ _ _ G1).
Qed.

Lemma scan_changes_only_the_log_witness :
  lookup (w_fs (fst (scan_drive_deep plain_platform demo_recovery_path
                       (mk_world list_only_tree 0) ["evidence"%string] None)))
         ["evidence"%string]
  = lookup list_only_tree ["evidence"%string] /\
  lookup (w_fs (fst (scan_drive_deep plain_platform demo_recovery_path
                       (mk_world list_only_tree 0) ["evidence"%string] None)))
         (log_file demo_recovery_path)
  = Found (File "forensic_log.txt" true true [x0a; x0a; x0a] 1704110400).
Proof.
  split.
  - exact (scan_changes_only_the_log plain_platform demo_recovery_path
             (mk_world list_only_tree 0) ["evidence"%string] None
             ["evidence"%string] eq_refl).
  - reflexivity.
Defined.
(** ** The "recover selected files" branch *)

Section SelectionFacts.

Variable pf : platform.
Variable recovery_path : path.
Variable int_of_string : string -> option Z.

Lemma recover_indices_selected (scan_results : list found_file) (indices : list Z) :
  forall w recovered_files,
    recover_indices pf recovery_path w scan_results indices
      recovered_files
    = main_recover_all pf recovery_path w
        (selected scan_results indices) recovered_files.
Proof.
  induction indices as [|idx rest IH]; intros w recovered_files; [reflexivity|].
  cbn [recover_indices]. unfold selected in *. cbn [flat_map].
  destruct ((0 <=? idx) && (idx <? len (firstn 20 scan_results))) eqn:R.
  - destruct (nth_error scan_results (Z.to_nat idx)) as [item|] eqn:N.
    + cbn [app Universal.main_recover_all].
      destruct (recover_file pf recovery_path w item None)
        as [w' [result|e]] eqn:Hr; [apply IH|].
      apply recover_file_raises in Hr. now destruct e.
    + exfalso. apply nth_error_None in N.
      apply andb_true_iff in R as [R1 R2].
      apply Z.leb_le in R1. apply Z.ltb_lt in R2.
      unfold len in R2. rewrite length_firstn in R2. lia.
  - cbn [app]. apply IH.
Qed.

Lemma selected_in_first_twenty (scan_results : list found_file) (indices : list Z) :
  incl (selected scan_results indices) (firstn 20 scan_results).
Proof.
  intros item Hin. unfold selected in Hin.
  apply in_flat_map in Hin as (idx & _ & Hin).
  destruct ((0 <=? idx) && (idx <? len (firstn 20 scan_results))) eqn:R;
    [|contradiction].
  destruct (nth_error scan_results (Z.to_nat idx)) as [it|] eqn:N; [|contradiction].
  destruct Hin as [<- | []].
  apply andb_true_iff in R as [R1 R2].
  apply Z.leb_le in R1. apply Z.ltb_lt in R2.
  unfold len in R2. rewrite length_firstn in R2.
  apply nth_error_In with (n := Z.to_nat idx).
  rewrite nth_error_firstn.
  destruct (Nat.ltb (Z.to_nat idx) 20) eqn:L; [exact N|].
  apply Nat.ltb_ge in L. lia.
Qed.

End SelectionFacts.

(** X15. Whatever is typed at "select files to recover", the branch
    behaves as the recover-all loop run on some of the first twenty scan
    results: [a] takes all twenty; a list of numbers takes, in the order
    typed, the results whose 1-based number is in range (others are
    skipped); and [c], or a list in which any piece is not a number, takes
    none, so nothing is recovered. *)
Theorem main_recover_selected_within_first_twenty
    (pf : platform) (recovery_path : path) (int_of_string : string -> option Z)
    (w : world) (scan_results : list found_file)
    (recovered_files : list recover_result) (selection : string) :
  exists items,
    incl items (firstn 20 scan_results) /\
    main_recover_selected pf recovery_path int_of_string
      w scan_results recovered_files selection
    = main_recover_all pf recovery_path w items recovered_files /\
    (selection = "a"%string -> items = firstn 20 scan_results) /\
    (selection <> "a"%string ->
     items = match parse_indices int_of_string (split "," selection) with
             | Some indices =>
                 if String.eqb selection "c" then []
                 else selected scan_results indices
             | None => []
             end).
Proof.
  unfold main_recover_selected.
  destruct scan_results as [|item0 rest].
  - exists []. split; [apply incl_nil_l|]. split; [reflexivity|]. split.
    + intros _. reflexivity.
    + intros _. destruct (parse_indices _ _) as [indices|]; [|reflexivity].
      destruct (String.eqb selection "c"); [reflexivity|].
      unfold selected. induction indices as [|idx indices IH]; [reflexivity|].
      simpl. rewrite andb_comm. 
      replace (idx <? len (@nil found_file)) with (idx <? 0) by reflexivity.
      destruct (idx <? 0) eqn:Neg; simpl.
      * apply Z.ltb_lt in Neg.
        replace (0 <=? idx) with false by (symmetry; apply Z.leb_gt; lia).
        exact IH.
      * exact IH.
  - destruct (String.eqb selection "a") eqn:A.
    + apply String.eqb_eq in A. exists (firstn 20 (item0 :: rest)).
      split; [apply incl_refl|]. split; [reflexivity|]. split; [reflexivity|].
      intros Ne. contradiction.
    + apply String.eqb_neq in A.
      destruct (String.eqb selection "c") eqn:C.
      * exists []. split; [apply incl_nil_l|]. split; [reflexivity|].
        split; [intros E; contradiction|].
        intros _. destruct (parse_indices _ _); reflexivity.
      * destruct (parse_indices int_of_string (split "," selection))
          as [indices|] eqn:P.
        -- exists (selected (item0 :: rest) indices).
           split; [apply selected_in_first_twenty|].
           split; [apply recover_indices_selected|].
           split; [intros E; contradiction | reflexivity].
        -- exists []. split; [apply incl_nil_l|]. split; [reflexivity|].
           split; [intros E; contradiction | reflexivity].
Qed.

(** ** The counting dicts of the summaries *)

Lemma dict_get_set_same (d : counts) (k : string) (v default : Z) :
  dict_get (dict_set d k v) k default = v.
Proof.
  induction d as [|[k' v'] d IH]; simpl.
  - now rewrite String.eqb_refl.
  - destruct (String.eqb k' k) eqn:E; simpl; rewrite E; [reflexivity | exact IH].
Qed.

Lemma dict_get_set_other (d : counts) (k k' : string) (v default : Z) :
  k <> k' -> dict_get (dict_set d k v) k' default = dict_get d k' default.
Proof.
  intros Ne. induction d as [|[k0 v0] d IH]; simpl.
  - destruct (String.eqb k k') eqn:E; [apply String.eqb_eq in E; contradiction|].
    reflexivity.
  - destruct (String.eqb k0 k) eqn:E; simpl.
    + apply String.eqb_eq in E. subst k0.
      destruct (String.eqb k k') eqn:E'; [apply String.eqb_eq in E'; contradiction|].
      reflexivity.
    + destruct (String.eqb k0 k'); [reflexivity | exact IH].
Qed.

Lemma dict_set_keys (d : counts) (k : string) (v : Z) :
  map fst (dict_set d k v)
  = if existsb (String.eqb k) (map fst d) then map fst d else map fst d ++ [k].
Proof.
  induction d as [|[k' v'] d IH]; simpl; [reflexivity|].
  rewrite (String.eqb_sym k k').
  destruct (String.eqb k' k) eqn:E; simpl; [reflexivity|].
  rewrite IH. destruct (existsb (String.eqb k) (map fst d)); reflexivity.
Qed.

Lemma dict_set_nodup (d : counts) (k : string) (v : Z) :
  NoDup (map fst d) -> NoDup (map fst (dict_set d k v)).
Proof.
  intros ND. rewrite dict_set_keys.
  destruct (existsb (String.eqb k) (map fst d)) eqn:E; [exact ND|].
  apply NoDup_app; [exact ND | repeat constructor; intros [] |].
  intros x Hx [Ek | []]. subst x.
  assert (existsb (String.eqb k) (map fst d) = true)
    by (apply existsb_exists; exists k; split; [exact Hx | apply String.eqb_refl]).
  congruence.
Qed.

Lemma dict_increment_total (d : counts) (k : string) :
  total (dict_set d k (dict_get d k 0 + 1)) = total d + 1.
Proof.
  unfold total. induction d as [|[k' v'] d IH]; simpl; [lia|].
  destruct (String.eqb k' k); simpl; [lia | rewrite IH; lia].
Qed.

Section Counting.

Variable key : found_file -> string.

Lemma count_by_fold (items : list found_file) :
  forall d,
    NoDup (map fst d) ->
    let d' := fold_left (increment key) items d in
    NoDup (map fst d') /\
    total d' = total d + len items /\
    (forall k, dict_get d' k 0
               = dict_get d k 0
                 + len (filter (fun item => String.eqb (key item) k) items)) /\
    (forall k, In k (map fst d') <->
               In k (map fst d) \/ exists item, In item items /\ key item = k).
Proof.
  induction items as [|item items IH]; intros d ND; simpl.
  - repeat split; auto; try (unfold len; simpl; lia).
    intros [H | (item & [] & _)]. exact H.
  - destruct (IH (increment key d item) (dict_set_nodup _ _ _ ND))
      as (ND' & Tot & Get & Keys).
    split; [exact ND'|]. split; [|split].
    + rewrite Tot. unfold increment. rewrite dict_increment_total.
      unfold len. simpl length. lia.
    + intros k. rewrite Get. unfold increment.
      destruct (String.eqb (key item) k) eqn:E.
      * apply String.eqb_eq in E. subst k. rewrite dict_get_set_same.
        unfold len. simpl length. lia.
      * apply String.eqb_neq in E. rewrite dict_get_set_other by exact E. lia.
    + intros k. rewrite Keys. unfold increment. rewrite dict_set_keys.
      destruct (existsb (String.eqb (key item)) (map fst d)) eqn:E.
      * apply existsb_exists in E as (x & Hx & Ex). apply String.eqb_eq in Ex.
        subst x. split.
        -- intros [H | (it & Hit & Hk)]; [now left | right; eauto].
        -- intros [H | (it & [<- | Hit] & Hk)]; [now left | left; now subst | right; eauto].
      * rewrite in_app_iff. simpl. split.
        -- intros [[H | [<- | []]] | (it & Hit & Hk)]; [now left | right; eauto | right; eauto].
        -- intros [H | (it & [<- | Hit] & Hk)];
             [left; now left | left; right; left; exact Hk | right; eauto].
Qed.

End Counting.

Lemma scan_summary_fold (items : list found_file) :
  forall (d1 d2 : counts) (z : Z),
    fold_left
      (fun '(by_type, by_source, total_size) item =>
         (dict_set by_type (ff_type item) (dict_get by_type (ff_type item) 0 + 1),
          dict_set by_source (ff_source item)
            (dict_get by_source (ff_source item) 0 + 1),
          total_size + ff_size item))
      items (d1, d2, z)
    = (fold_left (increment ff_type) items d1,
       fold_left (increment ff_source) items d2,
       fold_left (fun acc item => acc + ff_size item) items z).
Proof.
  induction items as [|item items IH]; intros d1 d2 z; simpl;
    [reflexivity | apply IH].
Qed.

Lemma scan_summary_components (scan_results : list found_file) :
  scan_summary scan_results
  = (count_by ff_type scan_results, count_by ff_source scan_results,
     fold_left (fun acc item => acc + ff_size item) scan_results 0).
Proof.
  unfold scan_summary. apply scan_summary_fold.
Qed.

(** X13. The summary counts every result once per dict: in [by_type] and
    in [by_source] the keys are distinct, the count under a key is the
    number of results with that type (source), a key is present exactly
    when some result has it, and the counts add up to the number of
    results. *)
Theorem scan_summary_counts (scan_results : list found_file) :
  let by_type := fst (fst (scan_summary scan_results)) in
  let by_source := snd (fst (scan_summary scan_results)) in
  NoDup (map fst by_type) /\ NoDup (map fst by_source) /\
  total by_type = len scan_results /\ total by_source = len scan_results /\
  (forall k, dict_get by_type k 0
             = len (filter (fun item => String.eqb (ff_type item) k) scan_results)) /\
  (forall k, dict_get by_source k 0
             = len (filter (fun item => String.eqb (ff_source item) k) scan_results)) /\
  (forall k, In k (map fst by_type) <->
             exists item, In item scan_results /\ ff_type item = k) /\
  (forall k, In k (map fst by_source) <->
             exists item, In item scan_results /\ ff_source item = k).
Proof.
  cbv zeta. rewrite scan_summary_components. cbn [fst snd].
  pose proof (count_by_fold ff_type scan_results [] (NoDup_nil _)) as H1.
  pose proof (count_by_fold ff_source scan_results [] (NoDup_nil _)) as H2.
  cbv zeta in H1, H2.
  change (fold_left (increment ff_type) scan_results [])
    with (count_by ff_type scan_results) in H1.
  change (fold_left (increment ff_source) scan_results [])
    with (count_by ff_source scan_results) in H2.
  destruct H1 as (N1 & T1 & G1 & K1). destruct H2 as (N2 & T2 & G2 & K2).
  split; [exact N1|]. split; [exact N2|].
  split; [rewrite T1; reflexivity|]. split; [rewrite T2; reflexivity|].
  split; [intros k; rewrite G1; reflexivity|].
  split; [intros k; rewrite G2; reflexivity|].
  split; intros k.
  - rewrite K1. split; [intros [[] | H]; exact H | now right].
  - rewrite K2. split; [intros [[] | H]; exact H | now right].
Qed.

(** ** Devices *)

(** X14. [connect_device] reports success exactly when some device is
    listed and the requested id is absent, empty or listed. On success the
    selected device is one of those listed (the first one for an absent or
    empty id, the requested one otherwise); on failure [self.device_id]
    keeps its value. *)
Theorem connect_device_selects_listed
    (devices : list string) (self_device_id device_id : option string) :
  let requested :=
    match device_id with
    | Some d => if String.eqb d EmptyString then None else Some d
    | None => None
    end in
  (snd (connect_device devices self_device_id device_id) = true <->
   devices <> [] /\
   match requested with Some d => In d devices | None => True end) /\
  (snd (connect_device devices self_device_id device_id) = true ->
   fst (connect_device devices self_device_id device_id)
   = match requested with
     | Some d => Some d
     | None => Some (hd EmptyString devices)
     end /\
   exists d, fst (connect_device devices self_device_id device_id) = Some d /\
             In d devices) /\
  (snd (connect_device devices self_device_id device_id) = false ->
   fst (connect_device devices self_device_id device_id) = self_device_id).
Proof.
  cbv zeta. unfold connect_device.
  destruct devices as [|first rest].
  - simpl. repeat split; try discriminate. intros [H _]. now contradiction H.
  - destruct device_id as [d|]; [destruct (String.eqb d EmptyString)|].
    + simpl. repeat split; try discriminate; eauto.
    + destruct (existsb (String.eqb d) (first :: rest)) eqn:E.
      * apply existsb_exists in E as (x & Hx & Ex). apply String.eqb_eq in Ex.
        subst x. simpl fst. simpl snd.
        repeat split; try discriminate; eauto.
      * simpl fst. simpl snd. repeat split; try discriminate.
        intros [_ Hin].
        assert (existsb (String.eqb d) (first :: rest) = true)
          by (apply existsb_exists; exists d; split;
              [exact Hin | apply String.eqb_refl]).
        congruence.
    + simpl. repeat split; try discriminate; eauto.
Qed.

(** ** Parsing the device list *)

Lemma split_cons (sep : ascii) (s : string) :
  exists piece more, split sep s = piece :: more.
Proof.
  induction s as [|c s (piece & more & E)]; simpl; [eauto|].
  destruct (Ascii.eqb c sep); [eauto|]. rewrite E. eauto.
Qed.

Lemma split_no_separator (sep : ascii) (s : string) :
  Forall (fun piece => has_char sep piece = false) (split sep s).
Proof.
  induction s as [|c s IH]; simpl; [repeat constructor|].
  destruct (Ascii.eqb c sep) eqn:E; [constructor; [reflexivity | exact IH]|].
  destruct (split sep s) as [|piece more]; [repeat constructor; simpl; now rewrite E|].
  inversion IH as [|? ? Hp Hm]; subst.
  constructor; [simpl; now rewrite E, Hp | exact Hm].
Qed.

Lemma split_head_prefix (sep : ascii) (s : string) :
  has_char sep s = true ->
  exists rest, s = (hd EmptyString (split sep s) ++ String sep rest)%string.
Proof.
  induction s as [|c s IH]; simpl; [discriminate|].
  destruct (Ascii.eqb c sep) eqn:E.
  - apply Ascii.eqb_eq in E. subst c. intros _. exists s. reflexivity.
  - simpl. intros H. destruct (IH H) as (rest & Hr).
    destruct (split_cons sep s) as (piece & more & Es). rewrite Es in *.
    simpl in *. exists rest. now rewrite Hr at 1.
Qed.

Lemma prefix_has_char (c : ascii) (sub s : string) :
  String.prefix (String c sub) s = true -> has_char c s = true.
Proof.
  destruct s as [|x s]; simpl; [discriminate|].
  destruct (ascii_dec c x) as [-> | Ne]; [|discriminate].
  intros _. now rewrite Ascii.eqb_refl.
Qed.

Lemma contains_has_char (c : ascii) (sub s : string) :
  contains (String c sub) s = true -> has_char c s = true.
Proof.
  induction s as [|x s IH].
  - simpl. discriminate.
  - cbn [contains]. intros H. apply orb_true_iff in H as [H | H].
    + now apply prefix_has_char in H.
    + simpl. rewrite (IH H). apply orb_true_r.
Qed.

Lemma has_char_app (c : ascii) (a b : string) :
  has_char c (a ++ b)%string = has_char c a || has_char c b.
Proof.
  induction a as [|x a IH]; simpl; [reflexivity|].
  now rewrite IH, orb_assoc.
Qed.

Lemma list_devices_fold (lines : list string) :
  forall devices,
    fold_left
      (fun devices line =>
         if contains (String tab "device") line
         then devices ++ [hd EmptyString (split tab line)]
         else devices) lines devices
    = devices ++
      flat_map (fun line =>
                  if contains (String tab "device") line
                  then [hd EmptyString (split tab line)] else []) lines.
Proof.
  induction lines as [|line lines IH]; intros devices; simpl.
  - now rewrite app_nil_r.
  - rewrite IH. destruct (contains (String tab "device") line); simpl.
    + now rewrite <- app_assoc.
    + reflexivity.
Qed.

Lemma list_devices_flat_map (out : string) :
  list_devices (Some out)
  = flat_map (fun line =>
                if contains (String tab "device") line
                then [hd EmptyString (split tab line)] else [])
             (tl (split newline out)).
Proof.
  unfold list_devices. now rewrite list_devices_fold.
Qed.

(** X16. [list_devices] reads device ids off the lines after the first
    one: every id returned is the text before the first tab of a line,
    other than the first, that contains a tab followed by [device]; an id
    holds neither a tab nor a line break; there are no more ids than such
    lines; and a failed [adb] call gives the empty list. *)
Theorem list_devices_reads_lines (stdout : option string) :
  (stdout = None -> list_devices stdout = []) /\
  (forall out, stdout = Some out ->
     (length (list_devices stdout) <= length (tl (split newline out)))%nat) /\
  (forall id, In id (list_devices stdout) ->
     has_char tab id = false /\ has_char newline id = false /\
     exists out line rest,
       stdout = Some out /\ In line (tl (split newline out)) /\
       contains (String tab "device") line = true /\
       line = (id ++ String tab rest)%string).
Proof.
  split; [intros ->; reflexivity|]. split.
  - intros out ->. rewrite list_devices_flat_map.
    induction (tl (split newline out)) as [|line lines IH]; simpl; [lia|].
    rewrite length_app. destruct (contains _ line); simpl; lia.
  - intros id Hin. destruct stdout as [out|]; [|contradiction].
    rewrite list_devices_flat_map in Hin.
    apply in_flat_map in Hin as (line & Hline & Hid).
    destruct (contains (String tab "device") line) eqn:C; [|contradiction].
    destruct Hid as [<- | []].
    destruct (split_head_prefix tab line (contains_has_char _ _ _ C)) as (rest & Hrest).
    assert (NoTab : has_char tab (hd EmptyString (split tab line)) = false).
    { pose proof (split_no_separator tab line) as F.
      destruct (split_cons tab line) as (piece & more & E). rewrite E in *.
      now inversion F. }
    assert (NoNl : has_char newline line = false).
    { pose proof (split_no_separator newline out) as F.
      rewrite Forall_forall in F. apply F.
      destruct (split newline out); [contradiction | now right]. }
    split; [exact NoTab|]. split.
    + rewrite Hrest, has_char_app in NoNl. now apply orb_false_iff in NoNl.
    + exists out, line, rest. auto.
Qed.

